(** * RSS digest: keyword tagging and feed aggregation (rss_digest.py)

    A shallow embedding of the core of [rss_digest.py]: text
    normalisation, the precompiled keyword patterns, [tag_keywords],
    [fetch_rss_entries] and [process_rss_feeds], together with the
    properties the specification states about them.

    Text.  A Python [str] is modelled as a list of characters whose code
    points lie in U+0000..U+00FF; the character with code point [n] is the
    [ascii] value [n].  [str.lower] and the regular expression class [\w]
    are the restrictions of Python's Unicode tables to that range. *)

From Stdlib Require Import Ascii String NArith List Lia DecimalString.
From stdpp Require Import base decidable option list strings gmap.

Open Scope string_scope.
Open Scope list_scope.

Abbreviation str := (list ascii).

(** A Python string literal. *)
Notation "'py' s" := (list_ascii_of_string s) (at level 1, s at level 0, only parsing).

(** ** Characters *)

Definition ord (c : ascii) : N := N_of_ascii c.
Definition chr (n : N) : ascii := ascii_of_N n.

Definition in_range (lo hi : N) (c : ascii) : bool :=
  ((lo <=? ord c) && (ord c <=? hi))%N.

(** The characters that [str.lower] changes: A-Z and the Latin-1 capitals
    U+00C0..U+00DE without the multiplication sign U+00D7. *)
Definition is_upper (c : ascii) : bool :=
  in_range 65 90 c || (in_range 192 222 c && negb (ord c =? 215)%N).

Definition lower_char (c : ascii) : ascii :=
  if is_upper c then chr (ord c + 32) else c.

(** [text.lower()] *)
Definition lower (text : str) : str := map lower_char text.

(** [string.punctuation]: the 32 ASCII punctuation characters. *)
Definition string_punctuation : str :=
  py "!" ++ [chr 34] ++ py "#$%&'()*+,-./:;<=>?@[\]^_`{|}~".

(** [s.translate(str.maketrans('', '', deletechars))]: every character of
    [deletechars] is mapped to [None], that is, removed. *)
Definition translate_delete (deletechars : str) (s : str) : str :=
  filter (λ c, c ∉ deletechars) s.

(** [normalize_text]: lowercase and remove punctuation from text. *)
Definition normalize_text (text : str) : str :=
  translate_delete string_punctuation (lower text).

(** ** Exceptions

    The exceptions the program can meet; all of them are instances of
    Python's [Exception], which is what its [except] clauses catch. *)

Inductive exn : Type :=
| ReError                      (* re.error: the pattern does not compile *)
| FetchError (msg : str)       (* feedparser.parse: network or parse failure *)
| AttributeError (name : str)  (* entry.title or entry.link is absent *)
| ParserError (msg : str).     (* dateutil: the text is not a date *)

Inductive outcome (A : Type) : Type :=
| Ok (a : A)
| Raise (e : exn).
Arguments Ok {A} a.
Arguments Raise {A} e.

#[global] Instance outcome_ret : MRet outcome := λ A a, Ok a.
#[global] Instance outcome_bind : MBind outcome := λ A B f m,
  match m with
  | Ok a => f a
  | Raise e => Raise e
  end.

(** A computation over a mutable state [S] that returns or raises.  The
    state survives an exception, as the effects of Python code do. *)
Definition prog (S A : Type) : Type := S → outcome A * S.

#[global] Instance prog_ret {S} : MRet (prog S) := λ A a s, (Ok a, s).
#[global] Instance prog_bind {S} : MBind (prog S) := λ A B f m s,
  match m s with
  | (Ok a, s') => f a s'
  | (Raise e, s') => (Raise e, s')
  end.

(** A call that has no effect on the state. *)
Definition lift {S A} (o : outcome A) : prog S A := λ s, (o, s).

Definition gets {S A} (f : S → A) : prog S A := λ s, (Ok (f s), s).
Definition modify {S} (f : S → S) : prog S unit := λ s, (Ok (), f s).

(** [try: body except Exception as e: handler(e)] *)
Definition try_except {S A} (body : prog S A) (handler : exn → prog S A) : prog S A :=
  λ s, match body s with
       | (Ok a, s') => (Ok a, s')
       | (Raise e, s') => handler e s'
       end.

(** [for x in l: body(x)] *)
Fixpoint for_each {S A} (l : list A) (body : A → prog S unit) : prog S unit :=
  match l with
  | [] => mret ()
  | x :: l' => body x ;; for_each l' body
  end.

(** ** Regular expressions: the fragment of [re] the program uses *)

Module re.

(** A compiled pattern of the fragment: a sequence of literal characters
    and word-boundary assertions. *)
Inductive atom : Type :=
| Boundary            (* \b *)
| Lit (c : ascii).    (* a character that matches itself *)

Definition pattern := list atom.

#[global] Instance atom_eq_dec : EqDecision atom.
Proof. solve_decision. Defined.

#[global] Instance atom_countable : Countable atom :=
  inj_countable'
    (λ a, match a with Boundary => None | Lit c => Some c end)
    (λ o, match o with None => Boundary | Some c => Lit c end)
    (λ a, match a with Boundary => eq_refl | Lit _ => eq_refl end).

(** The characters [re.escape] puts a backslash before (Python 3.7 and
    later): [()[]{}?*+-|^$\.&~# \t\n\r\v\f]. *)
Definition special_chars : str :=
  py "()[]{}?*+-|^$\.&~# " ++ [chr 9; chr 10; chr 13; chr 11; chr 12].

Definition escape_char (c : ascii) : str :=
  if decide (c ∈ special_chars) then ["\"%char; c] else [c].

(** [re.escape(s)] *)
Definition escape (s : str) : str := flat_map escape_char s.

(** ASCII letters and digits: after a backslash they start an escape
    sequence instead of standing for themselves. *)
Definition is_ascii_alnum (c : ascii) : bool :=
  in_range 48 57 c || in_range 65 90 c || in_range 97 122 c.

(** Characters with a meaning of their own in a pattern. *)
Definition meta_chars : str := py ".^$*+?{}[]|()".

(** The parser of [re.compile], for patterns made of [\b], escaped
    non-alphanumeric characters and plain characters.  [None] stands
    for a pattern outside that fragment (or one [re] rejects). *)
Fixpoint parse (s : str) : option pattern :=
  match s with
  | [] => Some []
  | c :: s' =>
      if decide (c = "\"%char) then
        match s' with
        | [] => None
        | e :: s'' =>
            if decide (e = "b"%char) then cons Boundary <$> parse s''
            else if is_ascii_alnum e then None
            else cons (Lit e) <$> parse s''
        end
      else if decide (c ∈ meta_chars) then None
      else cons (Lit c) <$> parse s'
  end.

(** [re.compile(s)] *)
Definition compile (s : str) : outcome pattern :=
  match parse s with
  | Some p => Ok p
  | None => Raise ReError
  end.

(** [\w] for a [str] pattern (Unicode matching): alphanumeric
    characters and the underscore. *)
Definition is_word (c : ascii) : bool :=
  in_range 48 57 c || in_range 65 90 c || (ord c =? 95)%N || in_range 97 122 c
  || (ord c =? 170)%N || in_range 178 179 c || (ord c =? 181)%N
  || in_range 185 186 c || in_range 188 190 c
  || in_range 192 214 c || in_range 216 246 c || in_range 248 255 c.

Definition word_before (prev : option ascii) : bool :=
  from_option is_word false prev.

Definition word_after (rest : str) : bool :=
  from_option is_word false (head rest).

(** [\b] holds between a word character and a non-word character (or
    an end of the text). *)
Definition at_boundary (prev : option ascii) (rest : str) : bool :=
  xorb (word_before prev) (word_after rest).

(** Match [p] at the current position: [prev] is the character before
    it, [rest] the text from it on. *)
Fixpoint match_here (p : pattern) (prev : option ascii) (rest : str) : bool :=
  match p with
  | [] => true
  | Boundary :: p' => at_boundary prev rest && match_here p' prev rest
  | Lit c :: p' =>
      match rest with
      | [] => false
      | x :: rest' => bool_decide (x = c) && match_here p' (Some x) rest'
      end
  end.

Fixpoint search_from (p : pattern) (prev : option ascii) (rest : str) : bool :=
  match_here p prev rest ||
  match rest with
  | [] => false
  | x :: rest' => search_from p (Some x) rest'
  end.

(** [pattern.search(content)], as a truth value: is there a match
    starting at some position of [content]? *)
Definition search (p : pattern) (content : str) : bool :=
  search_from p None content.

End re.

(** ** Configuration *)

Definition RSS_FEEDS : list str := [
    py "https://www.adweek.com/feed/";
    py "https://rss.nytimes.com/services/xml/rss/nyt/Business.xml";
    py "https://www.fastcasual.com/rss/";
    py "https://www.qsrmagazine.com/feed/";
    py "https://www.nrn.com/rss.xml";
    py "https://www.restaurantbusinessonline.com/rss.xml";
    py "https://www.foodbusinessnews.net/rss/articles";
    py "https://www.technomic.com/rss.xml"
  ].

Definition KEYWORDS : list str := [
    py "Inspire Brands"; py "Dunkin"; py "Sonic"; py "Buffalo Wild Wings"; py "BWW"; py "Jimmy John's";
    py "Arby's"; py "Baskin-Robbins"; py "McDonald's"; py "McDonalds"; py "McD"; py "Burger King"; py "KFC"; py "Wingstop";
    py "Starbucks"; py "Chipotle"; py "Taco Bell"; py "Popeyes"; py "Wendy's"; py "Chick-fil-A"; py "Panera";
    py "Plant-based"; py "Vegan fast food"; py "Lab-grown meat"; py "Functional food"; py "Mood-boosting food";
    py "Spicy"; py "Sustainable packaging"; py "Zero-waste"; py "Ethical sourcing"; py "Ghost kitchens";
    py "Virtual restaurants"; py "AI drive-thru"; py "Mobile ordering"; py "Contactless payment"; py "Personalized menu";
    py "Digital loyalty"; py "Foodtainment"; py "Pop culture menu"; py "Secret menu hack";
    py "Fine dining fast food"; py "Drinks-only locations"; py "Korean fried chicken"; py "Mexican street food";
    py "Southeast Asian flavors"; py "Global fusion"; py "International QSR"; py "Spicy"; py "consumer confidence"; py "consumer spending"; py "GenZ"; py "culture trends"; py "consumer preferences"; py "Marketing strategies"; py "Brand loyalty"; py "Customer experience"; py "Digital transformation"; py "Sustainability"; py "Health trends"; py "Economic impact"
  ].

(** [re.compile(r'\b' + re.escape(kw.lower()) + r'\b')] *)
Definition compile_keyword (kw : str) : outcome re.pattern :=
  re.compile (py "\b" ++ re.escape (lower kw) ++ py "\b").

(** The list comprehension [[re.compile(...) for kw in keywords]]. *)
Definition compile_keywords (keywords : list str) : outcome (list re.pattern) :=
  mapM compile_keyword keywords.

Definition KEYWORD_PATTERNS : outcome (list re.pattern) :=
  compile_keywords KEYWORDS.

(** ** Tagging *)

(** The dictionary [article_info] that [fetch_rss_entries] builds. *)
Record article : Type := {
  title : str;
  link : str;
  summary : str;
  published : str
}.

(** [tag_keywords]: tag article with matching keywords using regex. *)
Definition tag_keywords (a : article) (keyword_patterns : list re.pattern)
    (original_keywords : list str) : list str :=
  let content := normalize_text (title a ++ py " " ++ summary a) in
  foldl (λ matched '(pattern, original_kw),
           if re.search pattern content then matched ++ [original_kw] else matched)
        [] (zip keyword_patterns original_keywords).

(** ** Feed entries and dates *)

(** An entry of a parsed feed.  Any of its fields can be absent:
    [entry.title] and [entry.link] then raise [AttributeError], while
    [entry.get(name, "")] gives the default. *)
Record feed_entry : Type := {
  entry_title : option str;
  entry_link : option str;
  entry_summary : option str;
  entry_published : option str
}.

(** [entry.name] *)
Definition entry_attr (name : str) (field : option str) : outcome str :=
  match field with
  | Some v => Ok v
  | None => Raise (AttributeError name)
  end.

(** [entry.get(name, dflt)] *)
Definition entry_get (field : option str) (dflt : str) : str :=
  default dflt field.

(** The dictionary built for one entry; its values are evaluated in the
    order they are written. *)
Definition article_info (entry : feed_entry) : outcome article :=
  t ← entry_attr (py "title") (entry_title entry);
  l ← entry_attr (py "link") (entry_link entry);
  mret {| title := t;
          link := l;
          summary := entry_get (entry_summary entry) (py "");
          published := entry_get (entry_published entry) (py "") |}.

(** The date fields of a [datetime.datetime], which the class keeps
    within these bounds (MINYEAR = 1, MAXYEAR = 9999); the time of day
    is not read by the program. *)
Definition valid_date (y m d : N) : bool :=
  ((1 <=? y) && (y <=? 9999) && (1 <=? m) && (m <=? 12) && (1 <=? d) && (d <=? 31))%N.

Record datetime : Type := {
  year : N;
  month : N;
  day : N;
  datetime_valid : Is_true (valid_date year month day)
}.

Definition decimal (n : N) : str :=
  list_ascii_of_string (NilZero.string_of_uint (N.to_uint n)).

(** Pad with zeros on the left up to [width] characters. *)
Definition zfill (width : nat) (s : str) : str :=
  replicate (width - length s) "0"%char ++ s.

(** [d.strftime('%Y-%m-%d')], as CPython gives it through the C
    library on Linux (glibc): [%Y] is the year in decimal without
    padding, so a year below 1000 has fewer than four digits; [%m] and
    [%d] are the month and the day on two digits. *)
Definition strftime_Ymd (d : datetime) : str :=
  decimal (year d) ++ py "-" ++ zfill 2 (decimal (month d))
    ++ py "-" ++ zfill 2 (decimal (day d)).

(** The shape "YYYY-MM-DD". *)
Definition is_digit (c : ascii) : bool := in_range 48 57 c.





(** [sep.join(l)] *)
Fixpoint join (sep : str) (l : list str) : str :=
  match l with
  | [] => []
  | [x] => x
  | x :: l' => x ++ sep ++ join sep l'
  end.

(** A row of the result table. *)
Record result : Type := {
  Title : str;
  Date : str;
  Link : str;
  Keywords : str;
  Summary : str
}.

(** ** The process state: log and caches *)

(** What the program reports: a feed that failed (written to the log
    and shown with [st.error]), and the number of articles fetched. *)
Inductive event : Type :=
| FetchFailed (feed_url : str) (e : exn)
| Fetched (n : nat).

(** The local state of the body of [fetch_rss_entries]. *)
Record fetch_state : Type := {
  all_entries : list article;
  fetch_log : list event
}.

(** [st.cache_data] keeps, per decorated function, the value returned
    for each argument tuple together with the time it was stored. *)
Record world : Type := {
  fetch_cache : gmap (list str) (N * list article);
  process_cache : gmap (list str * list re.pattern * list str) (N * list result);
  log : list event
}.

Definition empty_world : world :=
  {| fetch_cache := ∅; process_cache := ∅; log := [] |}.

Definition set_fetch_cache (c : gmap (list str) (N * list article)) (w : world) : world :=
  {| fetch_cache := c; process_cache := process_cache w; log := log w |}.

Definition set_process_cache
    (c : gmap (list str * list re.pattern * list str) (N * list result)) (w : world) : world :=
  {| fetch_cache := fetch_cache w; process_cache := c; log := log w |}.

Definition write_log (events : list event) (w : world) : world :=
  {| fetch_cache := fetch_cache w; process_cache := process_cache w;
     log := log w ++ events |}.

(** [ttl=3600]: cache for one hour. *)
Definition ttl : N := 3600.

(** A stored value is served while it is younger than [ttl] seconds. *)
Definition cache_hit {V} (now : N) (stored : option (N * V)) : option V :=
  match stored with
  | Some (t, v) => if (now <? t + ttl)%N then Some v else None
  | None => None
  end.

(** The decorator [@st.cache_data(ttl=3600)]: [func] runs only when the
    cache has no fresh value for [key]; a value it returns is stored, an
    exception it raises is not. *)
Definition cache_data `{Countable K} {V}
    (get : world → gmap K (N * V)) (set : gmap K (N * V) → world → world)
    (func : K → prog world V) (now : N) (key : K) : prog world V :=
  λ w, match cache_hit now (get w !! key) with
       | Some v => (Ok v, w)
       | None =>
           match func key w with
           | (Ok v, w') => (Ok v, set (<[key := (now, v)]> (get w')) w')
           | (Raise e, w') => (Raise e, w')
           end
       end.

(** ** Aggregation and the pipeline *)

Section Pipeline.

(** The two external capabilities: the feed source, which returns the
    entries of a feed or fails, and the date parser. *)
Variable feedparser_parse : str → outcome (list feed_entry).
Variable date_parser_parse : str → outcome datetime.

Definition append_entry (a : article) : prog fetch_state unit :=
  modify (λ s, {| all_entries := all_entries s ++ [a]; fetch_log := fetch_log s |}).

Definition report (ev : event) : prog fetch_state unit :=
  modify (λ s, {| all_entries := all_entries s; fetch_log := fetch_log s ++ [ev] |}).

(** The body of one iteration of the loop over the feeds. *)
Definition fetch_feed (feed_url : str) : prog fetch_state unit :=
  try_except
    (feed ← lift (feedparser_parse feed_url);
     for_each feed (λ entry,
       info ← lift (article_info entry);
       append_entry info))
    (λ e, report (FetchFailed feed_url e)).

(** The body of [fetch_rss_entries]. *)
Definition fetch_rss_entries_body (feeds : list str) : prog fetch_state (list article) :=
  for_each feeds fetch_feed ;;
  gets all_entries.

(** One execution of the body, from an empty [all_entries]. *)
Definition fetch_rss_entries_uncached (feeds : list str) : prog world (list article) :=
  λ w, let '(r, s) := fetch_rss_entries_body feeds {| all_entries := []; fetch_log := [] |} in
       (r, write_log (fetch_log s) w).

(** [fetch_rss_entries]: fetch articles from selected RSS feeds. *)
Definition fetch_rss_entries (now : N) (feeds : list str) : prog world (list article) :=
  cache_data fetch_cache set_fetch_cache fetch_rss_entries_uncached now feeds.

(** The [try] around the date: any exception gives "Unknown Date". *)
Definition published_date (a : article) : str :=
  match d ← date_parser_parse (published a); Ok (strftime_Ymd d) with
  | Ok s => s
  | Raise _ => py "Unknown Date"
  end.

(** The loop of [process_rss_feeds] over the fetched entries. *)
Definition process_entries (entries : list article)
    (selected_keyword_patterns : list re.pattern) (selected_keywords : list str)
    : list result :=
  foldl (λ results a,
           let tags := tag_keywords a selected_keyword_patterns selected_keywords in
           match tags with
           | [] => results
           | _ :: _ =>
               results ++ [ {| Title := title a;
                               Date := published_date a;
                               Link := link a;
                               Keywords := join (py ", ") tags;
                               Summary := summary a |} ]
           end)
        [] entries.

Definition process_rss_feeds_body (now : N)
    (args : list str * list re.pattern * list str) : prog world (list result) :=
  let '(selected_feeds, selected_keyword_patterns, selected_keywords) := args in
  entries ← fetch_rss_entries now selected_feeds;
  modify (write_log [Fetched (length entries)]) ;;
  mret (process_entries entries selected_keyword_patterns selected_keywords).

Definition process_rss_feeds (now : N) (selected_feeds : list str)
    (selected_keyword_patterns : list re.pattern) (selected_keywords : list str)
    : prog world (list result) :=
  cache_data process_cache set_process_cache (process_rss_feeds_body now) now
    (selected_feeds, selected_keyword_patterns, selected_keywords).

End Pipeline.

(** ** The application: selection, run and display *)

(** [[pattern for pattern, keyword in zip(patterns, keywords)
      if keyword in selected_keywords]] *)
Definition select_keyword_patterns (patterns : list re.pattern)
    (keywords selected_keywords : list str) : list re.pattern :=
  (filter (λ pk, pk.2 ∈ selected_keywords) (zip patterns keywords)).*1.

(** What the display branch puts on the page. *)
Inductive element : Type :=
| Write (text : str)                    (* st.write(text) *)
| Dataframe (rows : list result)        (* st.dataframe(pd.DataFrame(rows), ...) *)
| Expander (label : str) (body : str).  (* with st.expander(label): st.write(body) *)

(** The branch [if results: ... else: ...] that displays the results. *)
Definition display (results : list result) : list element :=
  match results with
  | _ :: _ =>
      [Write (py "### Matching Articles"); Dataframe results;
       Write (py "### Article Summaries")]
      ++ ((λ r, Expander (Title r ++ py " (" ++ Date r ++ py ")") (Summary r)) <$> results)
  | [] => [Write (py "No matching articles found.")]
  end.

Section Application.

Variable feedparser_parse : str → outcome (list feed_entry).
Variable date_parser_parse : str → outcome datetime.

(** The body of [if st.button(...)] up to the display: filter the
    keyword patterns by the selection and run the analysis.  The module
    level list [KEYWORD_PATTERNS] is read here.  What the page shows
    while this runs (the spinner, and the error boxes of
    [fetch_rss_entries]) is not part of the value. *)
Definition run_analysis (now : N) (selected_keywords selected_feeds : list str)
    : prog world (list result) :=
  patterns ← lift KEYWORD_PATTERNS;
  process_rss_feeds feedparser_parse date_parser_parse now selected_feeds
    (select_keyword_patterns patterns KEYWORDS selected_keywords) selected_keywords.

End Application.

(** ** Notions the statements use *)

(** The text [tag_keywords] searches in. *)
Definition searched_text (a : article) : str :=
  normalize_text (title a ++ py " " ++ summary a).

(** What the pattern of a keyword compiles to. *)
Definition keyword_atoms (kw : str) : re.pattern :=
  re.Boundary :: (re.Lit <$> lower kw) ++ [re.Boundary].

(** The character before the current position once [consumed] has been
    read, [prev] being the character before that. *)
Definition prev_after (prev : option ascii) (consumed : str) : option ascii :=
  match last consumed with
  | Some c => Some c
  | None => prev
  end.

(** The characters next to an occurrence [pre ++ _ ++ post] are not word
    characters. *)
Definition free_standing (pre post : str) : Prop :=
  re.word_before (last pre) = false ∧ re.word_after post = false.

(** A keyword that begins and ends with a word character. *)
Definition word_delimited (kw : str) : Prop :=
  re.word_after kw = true ∧ re.word_before (last kw) = true.

(** Does the compiled pattern of [kw] match somewhere in [content]? *)
Definition keyword_matches (kw : str) (content : str) : bool :=
  match compile_keyword kw with
  | Ok p => re.search p content
  | Raise _ => false
  end.


Section Reference.

Variable feedparser_parse : str → outcome (list feed_entry).
Variable date_parser_parse : str → outcome datetime.

(** The articles of the entries up to the first one without a title or
    a link. *)
Fixpoint accepted (entries : list feed_entry) : list article :=
  match entries with
  | [] => []
  | entry :: entries' =>
      match article_info entry with
      | Ok a => a :: accepted entries'
      | Raise _ => []
      end
  end.

(** What one feed contributes to the aggregation. *)
Definition feed_articles (feed_url : str) : list article :=
  match feedparser_parse feed_url with
  | Ok entries => accepted entries
  | Raise _ => []
  end.

(** The exception that ends the work on one feed, if any. *)
Fixpoint first_error (entries : list feed_entry) : option exn :=
  match entries with
  | [] => None
  | entry :: entries' =>
      match article_info entry with
      | Ok _ => first_error entries'
      | Raise e => Some e
      end
  end.

Definition feed_events (feed_url : str) : list event :=
  match feedparser_parse feed_url with
  | Ok entries => from_option (λ e, [FetchFailed feed_url e]) [] (first_error entries)
  | Raise e => [FetchFailed feed_url e]
  end.

(** The feed is fetched and every entry has a title and a link. *)
Definition feed_succeeds (feed_url : str) (articles : list article) : Prop :=
  ∃ entries, feedparser_parse feed_url = Ok entries
             ∧ Forall2 (λ entry a, article_info entry = Ok a) entries articles.

(** Fetching the feed fails. *)
Definition feed_fails (feed_url : str) : Prop :=
  ∃ e, feedparser_parse feed_url = Raise e.

(** [aggregate feeds articles]: each feed of [feeds] either fails or
    succeeds, and [articles] are the articles of the successful ones,
    concatenated in the order of [feeds]. *)
Inductive aggregate : list str → list article → Prop :=
| aggregate_nil : aggregate [] []
| aggregate_failed feed_url feeds articles :
    feed_fails feed_url → aggregate feeds articles →
    aggregate (feed_url :: feeds) articles
| aggregate_fetched feed_url feeds fetched articles :
    feed_succeeds feed_url fetched → aggregate feeds articles →
    aggregate (feed_url :: feeds) (fetched ++ articles).

(** The row emitted for an article that has tags. *)
Definition emitted (ps : list re.pattern) (kws : list str) (a : article) : result :=
  {| Title := title a;
     Date := published_date date_parser_parse a;
     Link := link a;
     Keywords := join (py ", ") (tag_keywords a ps kws);
     Summary := summary a |}.

(** The states of the process: it starts with empty caches, and every
    call of a decorated function, at any time and on any arguments,
    leads to the next state. *)
Inductive reachable : world → Prop :=
| reachable_start : reachable empty_world
| reachable_fetch now feeds w :
    reachable w →
    reachable (fetch_rss_entries feedparser_parse now feeds w).2
| reachable_process now feeds ps kws w :
    reachable w →
    reachable (process_rss_feeds feedparser_parse date_parser_parse now feeds ps kws w).2.

(** Every cached value is what the decorated function computes on its
    key from the feed source. *)
Definition cache_sound (w : world) : Prop :=
  (∀ feeds t v, fetch_cache w !! feeds = Some (t, v) →
     v = flat_map feed_articles feeds)
  ∧ (∀ feeds ps kws t v, process_cache w !! (feeds, ps, kws) = Some (t, v) →
       v = process_entries date_parser_parse (flat_map feed_articles feeds) ps kws).

End Reference.

(** ** Sample capabilities, for running the model *)

Module Sample.

Definition entry (t p : string) : feed_entry :=
  {| entry_title := Some (list_ascii_of_string t);
     entry_link := Some (py "https://example.org/a");
     entry_summary := Some (py "details here");
     entry_published := Some (list_ascii_of_string p) |}.

(** A source where the first feed fails and the second has three
    entries. *)
Definition feeds (feed_url : str) : outcome (list feed_entry) :=
  if decide (feed_url = py "F2") then
    Ok [entry "Chipotle launches new menu" "2024-03-01T10:00:00Z";
        entry "Weather report" "2024-01-15";
        entry "Spicy wings at KFC" "not a date"]
  else Raise (FetchError (py "connection refused")).

(** The articles [fetch_rss_entries] builds from the second feed. *)
Definition articles : list article :=
  (λ '(t, p), {| title := list_ascii_of_string t;
                 link := py "https://example.org/a";
                 summary := py "details here";
                 published := list_ascii_of_string p |})
  <$> [("Chipotle launches new menu", "2024-03-01T10:00:00Z");
       ("Weather report", "2024-01-15");
       ("Spicy wings at KFC", "not a date")].

(** The article that matches no keyword. *)
Definition weather : article :=
  {| title := py "Weather report";
     link := py "https://example.org/a";
     summary := py "details here";
     published := py "2024-01-15" |}.


(** An entry without a link, and a feed that has it in second place. *)
Definition no_link : feed_entry :=
  {| entry_title := Some (py "No link"); entry_link := None;
     entry_summary := None; entry_published := None |}.

Definition cut_feed (feed_url : str) : outcome (list feed_entry) :=
  Ok ([entry "Weather report" "2024-01-15"] ++ no_link :: [entry "Lost" "2024-01-16"]).

Definition digit_value (c : ascii) : N := (ord c - 48)%N.

Definition number (cs : str) : option N :=
  if forallb is_digit cs
  then Some (foldl (λ n c, n * 10 + digit_value c)%N 0%N cs)
  else None.

(** A parser for dates that start with "YYYY-MM-DD". *)
Definition date_parser (text : str) : outcome datetime :=
  match text with
  | y1 :: y2 :: y3 :: y4 :: h1 :: m1 :: m2 :: h2 :: d1 :: d2 :: _ =>
      match number [y1; y2; y3; y4], number [m1; m2], number [d1; d2] with
      | Some y, Some m, Some d =>
          match decide (Is_true (valid_date y m d)) with
          | left H =>
              if bool_decide (h1 = "-"%char ∧ h2 = "-"%char)
              then Ok {| year := y; month := m; day := d; datetime_valid := H |}
              else Raise (ParserError text)
          | right _ => Raise (ParserError text)
          end
      | _, _, _ => Raise (ParserError text)
      end
  | _ => Raise (ParserError text)
  end.

Definition blank (t s : string) : article :=
  {| title := list_ascii_of_string t; link := [];
     summary := list_ascii_of_string s; published := [] |}.

End Sample.

(** ** Further notions *)


(** [kw], lowercased, occurs in [text] with no word character next to it. *)
Definition stands_free (kw text : str) : Prop :=
  ∃ pre post, text = pre ++ lower kw ++ post ∧ free_standing pre post.

(** The keywords of [selected] whose own compiled pattern matches the
    searched text of [a], in the order of [selected]. *)
Definition own_matches (selected : list str) (a : article) : list str :=
  filter (λ kw, Is_true (keyword_matches kw (searched_text a))) selected.

(** The entry has the two fields [fetch_rss_entries] reads as attributes. *)
Definition well_formed (entry : feed_entry) : Prop :=
  is_Some (entry_title entry) ∧ is_Some (entry_link entry).

(** * Properties *)

(** ** Characters and normalisation *)

Ltac each_char c :=
  destruct c as [[] [] [] [] [] [] [] []]; vm_compute; reflexivity.

Lemma lower_char_idem c : lower_char (lower_char c) = lower_char c.
Proof. each_char c. Qed.

Lemma lower_char_punctuation c :
  bool_decide (lower_char c ∈ string_punctuation) = bool_decide (c ∈ string_punctuation).
Proof. each_char c. Qed.

Lemma normalize_text_cons c text :
  normalize_text (c :: text) =
  if decide (c ∈ string_punctuation) then normalize_text text
  else lower_char c :: normalize_text text.
Proof.
  unfold normalize_text, translate_delete, lower. cbn [map].
  rewrite filter_cons.
  pose proof (lower_char_punctuation c) as Hp.
  destruct (decide (lower_char c ∉ string_punctuation)) as [Hn|Hn];
    destruct (decide (c ∈ string_punctuation)) as [Hc|Hc]; try reflexivity.
  - rewrite (bool_decide_eq_false_2 _ Hn), (bool_decide_eq_true_2 _ Hc) in Hp. discriminate.
  - apply dec_stable in Hn.
    rewrite (bool_decide_eq_true_2 _ Hn), (bool_decide_eq_false_2 _ Hc) in Hp. discriminate.
Qed.

Lemma normalize_text_app s t :
  normalize_text (s ++ t) = normalize_text s ++ normalize_text t.
Proof.
  unfold normalize_text, translate_delete, lower.
  by rewrite map_app, filter_app.
Qed.

(** No punctuation is left in a normalised text. *)
Lemma normalize_text_no_punctuation text c :
  c ∈ normalize_text text → c ∉ string_punctuation.
Proof.
  unfold normalize_text, translate_delete. rewrite list_elem_of_filter. tauto.
Qed.

Lemma lower_char_fixes_punctuation c :
  implb (bool_decide (c ∈ string_punctuation)) (bool_decide (lower_char c = c)) = true.
Proof. each_char c. Qed.

(** Lowercasing keeps punctuation in place. *)
Lemma lower_punctuation kw c :
  c ∈ string_punctuation → c ∈ kw → c ∈ lower kw.
Proof.
  intros Hp Hin. pose proof (lower_char_fixes_punctuation c) as H.
  rewrite (bool_decide_eq_true_2 _ Hp) in H. cbn [implb] in H.
  apply (bool_decide_eq_true_1 _) in H. rewrite <- H.
  unfold lower. apply list_elem_of_In, in_map, list_elem_of_In, Hin.
Qed.

(** C7. [normalize_text] is idempotent: normalising a normalised text
    changes nothing.  (It lowercases, then removes the ASCII punctuation
    characters.) *)
Theorem normalize_text_idempotent (x : str) :
  normalize_text (normalize_text x) = normalize_text x.
Proof.
  induction x as [|c x IH]; [reflexivity|].
  rewrite (normalize_text_cons c x).
  destruct (decide (c ∈ string_punctuation)) as [Hc|Hc]; [exact IH|].
  rewrite normalize_text_cons, lower_char_idem, IH.
  destruct (decide (lower_char c ∈ string_punctuation)) as [Hl|Hl]; [|reflexivity].
  exfalso. apply Hc. apply (bool_decide_eq_true_1 _).
  rewrite <- lower_char_punctuation. by apply bool_decide_eq_true_2.
Qed.

(** ** Compiling the keyword patterns *)

Lemma special_char_escaped c :
  bool_decide (c ∈ re.special_chars)
  && (bool_decide (c = "b"%char) || re.is_ascii_alnum c) = false.
Proof. each_char c. Qed.

Lemma plain_char_literal c :
  negb (bool_decide (c ∈ re.special_chars))
  && (bool_decide (c = "\"%char) || bool_decide (c ∈ re.meta_chars)) = false.
Proof. each_char c. Qed.

Lemma parse_escape_char c t :
  re.parse (re.escape_char c ++ t) = cons (re.Lit c) <$> re.parse t.
Proof.
  unfold re.escape_char.
  destruct (decide (c ∈ re.special_chars)) as [Hs|Hs].
  - pose proof (special_char_escaped c) as H.
    rewrite (bool_decide_eq_true_2 _ Hs) in H. cbn [andb] in H.
    apply orb_false_elim in H as [Hb Ha].
    cbn [app re.parse]. rewrite decide_True by reflexivity.
    rewrite decide_False by (by apply bool_decide_eq_false in Hb).
    by rewrite Ha.
  - pose proof (plain_char_literal c) as H.
    rewrite (bool_decide_eq_false_2 _ Hs) in H. cbn [negb andb] in H.
    apply orb_false_elim in H as [Hb Hm].
    cbn [app re.parse].
    rewrite decide_False by (by apply bool_decide_eq_false in Hb).
    by rewrite decide_False by (by apply bool_decide_eq_false in Hm).
Qed.

(** An escaped string parses to the literals of its characters. *)
Lemma parse_escape s t :
  re.parse (re.escape s ++ t) = app (re.Lit <$> s) <$> re.parse t.
Proof.
  induction s as [|c s IH]; cbn [re.escape flat_map app fmap list_fmap].
  - by destruct (re.parse t).
  - rewrite <- app_assoc, parse_escape_char. fold (re.escape s). rewrite IH.
    by destruct (re.parse t).
Qed.

Lemma compile_keyword_ok kw : compile_keyword kw = Ok (keyword_atoms kw).
Proof.
  unfold compile_keyword, re.compile.
  change (py "\b" ++ re.escape (lower kw) ++ py "\b")
    with ("\"%char :: "b"%char :: re.escape (lower kw) ++ py "\b").
  cbn [re.parse]. rewrite decide_True by reflexivity.
  rewrite decide_True by reflexivity. by rewrite parse_escape.
Qed.

(** Compiling the patterns of a keyword list never fails. *)
Lemma compile_keywords_ok K : compile_keywords K = Ok (keyword_atoms <$> K).
Proof.
  unfold compile_keywords.
  induction K as [|kw K IH]; [reflexivity|].
  cbn [mapM]. rewrite compile_keyword_ok. cbn. fold (mapM compile_keyword K).
  by rewrite IH.
Qed.

(** ** Tagging *)

Lemma tag_loop_filter content (l : list (re.pattern * str)) (matched : list str) :
  foldl (λ matched '(pattern, original_kw),
           if re.search pattern content then matched ++ [original_kw] else matched)
        matched l
  = matched ++ (filter (λ pk, Is_true (re.search pk.1 content)) l).*2.
Proof.
  revert matched. induction l as [|[p kw] l IH]; intros matched; cbn [foldl].
  - by rewrite filter_nil, app_nil_r.
  - rewrite IH, filter_cons. cbn [fst].
    destruct (re.search p content).
    + rewrite decide_True by exact I. by rewrite fmap_cons, <- app_assoc.
    + by rewrite decide_False by (intros []).
Qed.

(** The loop of [tag_keywords] keeps, in order, the keywords whose
    pattern matches. *)
Lemma tag_keywords_filter a ps K :
  tag_keywords a ps K
  = (filter (λ pk, Is_true (re.search pk.1 (searched_text a))) (zip ps K)).*2.
Proof. unfold tag_keywords. fold (searched_text a). by rewrite tag_loop_filter. Qed.

Lemma tag_keywords_sublist a ps K : tag_keywords a ps K `sublist_of` K.
Proof.
  rewrite tag_keywords_filter.
  revert K. induction ps as [|p ps IH]; intros [|kw K]; cbn [zip_with];
    try (rewrite filter_nil; apply sublist_nil_l).
  rewrite filter_cons. destruct (decide _).
  - rewrite fmap_cons. apply sublist_skip, IH.
  - apply sublist_cons, IH.
Qed.

(** With the patterns compiled from the keywords themselves, tagging
    filters the keyword list. *)
Lemma tag_keywords_compiled a K :
  tag_keywords a (keyword_atoms <$> K) K
  = filter (λ kw, Is_true (re.search (keyword_atoms kw) (searched_text a))) K.
Proof.
  rewrite tag_keywords_filter.
  induction K as [|kw K IH]; [reflexivity|].
  rewrite fmap_cons. cbn [zip_with]. rewrite !filter_cons. cbn [fst].
  destruct (decide _); [rewrite fmap_cons|]; by rewrite IH.
Qed.

(** C1. For every article and every keyword list [K], whatever patterns
    accompany it, the tags returned by [tag_keywords] form a subsequence
    of [K] in the order of [K]: they are the keywords of the pairs
    (pattern, keyword), in list order, whose pattern is found in the
    normalised title-and-summary text; so a keyword is returned only if
    a pattern at its position matches.  With the patterns compiled from
    [K], which always compile, the tags are [K] filtered by "the
    keyword's own pattern matches". *)
Theorem tag_keywords_subsequence (a : article) (ps : list re.pattern) (K : list str) :
  tag_keywords a ps K `sublist_of` K
  ∧ tag_keywords a ps K
    = (filter (λ pk, Is_true (re.search pk.1
         (normalize_text (title a ++ py " " ++ summary a)))) (zip ps K)).*2
  ∧ (∀ kw, kw ∈ tag_keywords a ps K →
       ∃ i p, ps !! i = Some p ∧ K !! i = Some kw
              ∧ re.search p (normalize_text (title a ++ py " " ++ summary a)) = true)
  ∧ ∃ compiled, compile_keywords K = Ok compiled
      ∧ tag_keywords a compiled K
        = filter (λ kw, Is_true (keyword_matches kw
                    (normalize_text (title a ++ py " " ++ summary a)))) K.
Proof.
  fold (searched_text a). split; [apply tag_keywords_sublist|].
  split; [apply tag_keywords_filter|]. split.
  - intros kw. rewrite tag_keywords_filter, list_elem_of_fmap.
    intros [[p kw'] [-> Hin]]. apply list_elem_of_filter in Hin as [Hs Hin].
    apply list_elem_of_lookup in Hin as [i Hi].
    apply lookup_zip_with_Some in Hi as (p' & k' & [= <- <-] & Hp & Hk).
    exists i, p. cbn [fst snd] in *. by rewrite <- Is_true_true.
  - exists (keyword_atoms <$> K). split; [apply compile_keywords_ok|].
    rewrite tag_keywords_compiled. apply list_filter_iff. intros kw.
    unfold keyword_matches. by rewrite compile_keyword_ok.
Qed.




(** ** Searching for a keyword pattern *)

Lemma prev_after_cons prev c s : prev_after prev (c :: s) = prev_after (Some c) s.
Proof.
  unfold prev_after. destruct s as [|d s]; [done|].
  rewrite last_cons_cons. destruct (last (d :: s)) eqn:E; [done|].
  by apply last_None in E.
Qed.

Lemma prev_after_None s : prev_after None s = last s.
Proof. unfold prev_after. by destruct (last s). Qed.

(** A run of literals matches exactly when the text continues with it. *)
Lemma match_here_literals lit p prev rest :
  re.match_here ((re.Lit <$> lit) ++ p) prev rest = true
  ↔ ∃ post, rest = lit ++ post ∧ re.match_here p (prev_after prev lit) post = true.
Proof.
  revert prev rest. induction lit as [|c lit IH]; intros prev rest.
  - cbn. split; [by exists rest|]. by intros (post & -> & H).
  - rewrite fmap_cons. cbn [app re.match_here].
    destruct rest as [|x rest].
    + split; [discriminate|]. by intros (post & [=] & _).
    + rewrite andb_true_iff, bool_decide_eq_true, IH. split.
      * intros (-> & post & -> & H). exists post. by rewrite prev_after_cons.
      * intros (post & [= -> ->] & H). rewrite prev_after_cons in H. eauto.
Qed.

(** [search_from] tries every position of the text. *)
Lemma search_from_spec p prev rest :
  re.search_from p prev rest = true
  ↔ ∃ pre post, rest = pre ++ post ∧ re.match_here p (prev_after prev pre) post = true.
Proof.
  revert prev. induction rest as [|x rest IH]; intros prev; cbn [re.search_from].
  - rewrite orb_false_r. split.
    + intros H. by exists [], [].
    + intros (pre & post & Heq & H). symmetry in Heq.
      by apply app_eq_nil in Heq as [-> ->].
  - rewrite orb_true_iff, IH. split.
    + intros [H|(pre & post & -> & H)].
      * by exists [], (x :: rest).
      * exists (x :: pre), post. by rewrite prev_after_cons.
    + intros ([|y pre] & post & Heq & H).
      * left. cbn in Heq. by subst post.
      * right. injection Heq as -> ->. rewrite prev_after_cons in H. eauto.
Qed.

(** The pattern of a keyword is found where the lowercased keyword
    occurs with a word boundary on both sides. *)
Lemma keyword_search kw content :
  re.search (keyword_atoms kw) content = true
  ↔ ∃ pre post, content = pre ++ lower kw ++ post
      ∧ re.at_boundary (last pre) (lower kw ++ post) = true
      ∧ re.at_boundary (prev_after (last pre) (lower kw)) post = true.
Proof.
  unfold re.search, keyword_atoms. rewrite search_from_spec.
  split.
  - intros (pre & rest & -> & H). rewrite prev_after_None in H.
    cbn [re.match_here] in H. apply andb_true_iff in H as [Hb H].
    apply match_here_literals in H as (post & -> & H).
    cbn [re.match_here] in H. rewrite andb_true_r in H.
    by exists pre, post.
  - intros (pre & post & -> & Hb & He). exists pre, (lower kw ++ post).
    split; [done|]. rewrite prev_after_None. cbn [re.match_here].
    rewrite Hb. cbn [andb]. apply match_here_literals. exists post.
    split; [done|]. cbn [re.match_here]. by rewrite He.
Qed.

(** For a keyword that begins and ends with a word character, the two
    boundaries say that the occurrence stands free. *)
Lemma keyword_search_free_standing kw content :
  word_delimited (lower kw) →
  re.search (keyword_atoms kw) content = true
  ↔ ∃ pre post, content = pre ++ lower kw ++ post ∧ free_standing pre post.
Proof.
  intros [Hfirst Hlast]. rewrite keyword_search.
  assert (Hb : ∀ pre post,
    re.at_boundary (last pre) (lower kw ++ post) = true
    ∧ re.at_boundary (prev_after (last pre) (lower kw)) post = true
    ↔ free_standing pre post).
  { intros pre post. unfold free_standing, re.at_boundary.
    assert (re.word_after (lower kw ++ post) = true) as ->.
    { revert Hfirst. unfold re.word_after. by destruct (lower kw). }
    assert (re.word_before (prev_after (last pre) (lower kw)) = true) as ->.
    { revert Hlast. unfold prev_after. by destruct (last (lower kw)). }
    destruct (re.word_before (last pre)), (re.word_after post); cbn; intuition congruence. }
  split; intros (pre & post & Heq & H); exists pre, post; split; try done.
  - by apply Hb.
  - by apply Hb in H.
Qed.

Lemma tag_single a kw :
  tag_keywords a [keyword_atoms kw] [kw]
  = if re.search (keyword_atoms kw) (searched_text a) then [kw] else [].
Proof.
  change [keyword_atoms kw] with (keyword_atoms <$> [kw]).
  rewrite (tag_keywords_compiled a [kw]), filter_cons, filter_nil.
  destruct (re.search _ _).
  - by rewrite decide_True.
  - by rewrite decide_False by (intros []).
Qed.

(** In a text that is one word followed by a space, as the searched text
    of an article with a one-word title and an empty summary is, the only
    free-standing occurrence is the whole word. *)
Lemma single_word_occurrence (w lit pre post : str) :
  Forall (λ c, re.is_word c = true) w →
  re.word_before (last lit) = true →
  w ++ py " " = pre ++ lit ++ post → free_standing pre post → lit = w.
Proof.
  intros Hw Hlit Heq [Hpre Hpost].
  destruct post as [|x post _] using rev_ind.
  { rewrite app_nil_r in Heq. apply (f_equal last) in Heq.
    rewrite last_app in Heq. cbn [list_ascii_of_string last] in Heq.
    rewrite last_app in Heq. destruct (last lit) as [c|]; [|discriminate].
    injection Heq as <-. discriminate. }
  rewrite !app_assoc in Heq. apply app_inj_tail in Heq as [-> _].
  rewrite <- app_assoc in Hw.
  apply Forall_app in Hw as [Hw1 Hw2]. apply Forall_app in Hw2 as [_ Hw2].
  assert (pre = []) as ->.
  { destruct (last pre) as [c|] eqn:E; [|by apply last_None in E].
    apply last_Some in E as [pre' ->].
    apply Forall_app in Hw1 as [_ Hc]. apply Forall_inv in Hc.
    cbn in Hpre. congruence. }
  assert (post = []) as ->.
  { destruct post as [|c post]; [done|].
    apply Forall_inv in Hw2. cbn in Hpost. congruence. }
  by rewrite app_nil_l, app_nil_r.
Qed.

(** C2. Keyword matching is by word boundary, not by bare substring.
    With the single keyword "McD" and its compiled pattern, the article
    titled "McDonald's" gets no tag and the article titled
    "McD announces" gets the tag "McD".  In general a keyword is
    returned exactly when its lowercased text occurs contiguously in the
    normalised text with a word boundary at both ends of the occurrence;
    for a keyword that begins and ends with a word character, it is returned
    exactly when its lowercased text occurs contiguously in the
    normalised text with no word character next to it on either side;
    so when the title is one larger word (and the summary is empty) it
    is not returned. *)
Theorem word_boundary_matching :
  (∀ p l d, compile_keyword (py "McD") = Ok p →
     tag_keywords {| title := py "McDonald's"; link := l; summary := py ""; published := d |}
       [p] [py "McD"] = []
     ∧ tag_keywords {| title := py "McD announces"; link := l; summary := py ""; published := d |}
         [p] [py "McD"] = [py "McD"])
  ∧ (∀ a kw p, compile_keyword kw = Ok p →
       (tag_keywords a [p] [kw] = [kw]
        ↔ ∃ pre post, normalize_text (title a ++ py " " ++ summary a) = pre ++ lower kw ++ post
            ∧ re.at_boundary (last pre) (lower kw ++ post) = true
            ∧ re.at_boundary (prev_after (last pre) (lower kw)) post = true))
  ∧ (∀ a kw p, compile_keyword kw = Ok p → word_delimited (lower kw) →
       (tag_keywords a [p] [kw] = [kw]
        ↔ ∃ pre post, normalize_text (title a ++ py " " ++ summary a) = pre ++ lower kw ++ post
                      ∧ free_standing pre post)
       ∧ (tag_keywords a [p] [kw] = [kw] ∨ tag_keywords a [p] [kw] = [])
       ∧ (∀ w, Forall (λ c, re.is_word c = true) w → lower kw ≠ w →
            normalize_text (title a ++ py " " ++ summary a) = w ++ py " " →
            tag_keywords a [p] [kw] = [])).
Proof.
  split; [|split].
  - intros p l d. rewrite compile_keyword_ok. intros [= <-].
    split; vm_compute; reflexivity.
  - intros a kw p. rewrite compile_keyword_ok. intros [= <-].
    fold (searched_text a). rewrite tag_single, <- keyword_search.
    destruct (re.search (keyword_atoms kw) (searched_text a)); by split.
  - intros a kw p. rewrite compile_keyword_ok. intros [= <-] Hwd.
    fold (searched_text a). rewrite tag_single.
    rewrite <- (keyword_search_free_standing kw (searched_text a) Hwd).
    destruct (re.search (keyword_atoms kw) (searched_text a)) eqn:E.
    + split; [done|]. split; [by left|]. intros w Hw Hne Htext.
      apply keyword_search_free_standing in E as (pre & post & Heq & Hfree); [|done].
      destruct Hne. rewrite Htext in Heq.
      eapply single_word_occurrence; [done|apply Hwd|done..].
    + split; [split; discriminate|]. split; [by right|]. done.
Qed.

Lemma word_boundary_matching_witness :
  tag_keywords (Sample.blank "Try the new McD menu" "") [keyword_atoms (py "McD")] [py "McD"]
  = [py "McD"]
  ∧ tag_keywords (Sample.blank "McDonalds" "") [keyword_atoms (py "McD")] [py "McD"] = [].
Proof.
  split.
  - apply (proj1 (proj2 (proj2 word_boundary_matching)
      (Sample.blank "Try the new McD menu" "") (py "McD") (keyword_atoms (py "McD"))
      ltac:(vm_compute; reflexivity) (conj eq_refl eq_refl))).
    exists (py "try the new "), (py " menu ").
    split; [vm_compute; reflexivity|]. split; vm_compute; reflexivity.
  - refine (proj2 (proj2 (proj2 (proj2 word_boundary_matching)
      (Sample.blank "McDonalds" "") (py "McD") (keyword_atoms (py "McD"))
      ltac:(vm_compute; reflexivity) (conj eq_refl eq_refl))) (py "mcdonalds") _ _ _).
    + repeat constructor.
    + vm_compute. discriminate.
    + vm_compute. reflexivity.
Defined.

(** C9. A keyword that contains an ASCII punctuation character is never
    returned by [tag_keywords] when the patterns are the ones compiled
    from the keyword list: its pattern keeps the punctuation character as
    a literal, and the normalised text it is searched in has none, so the
    pattern matches no normalised text at all. *)
Theorem punctuated_keyword_never_tagged (a : article) (K : list str)
    (ps : list re.pattern) (kw : str) (c : ascii) :
  compile_keywords K = Ok ps →
  c ∈ string_punctuation → c ∈ kw →
  (kw ∉ tag_keywords a ps K)
  ∧ (∃ p, compile_keyword kw = Ok p ∧ re.Lit c ∈ p)
  ∧ (∀ text, keyword_matches kw (normalize_text text) = false).
Proof.
  rewrite compile_keywords_ok. intros [= <-] Hp Hin.
  pose proof (lower_punctuation kw c Hp Hin) as Hc.
  assert (Hno : ∀ text, re.search (keyword_atoms kw) (normalize_text text) = false).
  { intros text. apply not_true_is_false. intros Hs.
    apply keyword_search in Hs as (pre & post & Heq & _).
    apply (normalize_text_no_punctuation text c); [|done].
    rewrite Heq, !elem_of_app. right. by left. }
  split; [|split].
  - rewrite tag_keywords_compiled, list_elem_of_filter. intros [Hs _].
    unfold searched_text in Hs. by rewrite Hno in Hs.
  - exists (keyword_atoms kw). split; [apply compile_keyword_ok|].
    unfold keyword_atoms. apply list_elem_of_further, elem_of_app. left.
    apply list_elem_of_fmap. by exists c.
  - intros text. unfold keyword_matches. rewrite compile_keyword_ok. apply Hno.
Qed.

Lemma punctuated_keyword_never_tagged_witness :
  bool_decide (py "McDonald's" ∈ tag_keywords (Sample.blank "McDonald's opens" "McDonald's")
                                   (keyword_atoms <$> KEYWORDS) KEYWORDS) = false.
Proof.
  apply bool_decide_eq_false_2.
  apply (punctuated_keyword_never_tagged
    (Sample.blank "McDonald's opens" "McDonald's") KEYWORDS (keyword_atoms <$> KEYWORDS)
    (py "McDonald's") "'"%char).
  - vm_compute; reflexivity.
  - apply (bool_decide_eq_true_1 _). vm_compute; reflexivity.
  - apply (bool_decide_eq_true_1 _). vm_compute; reflexivity.
Defined.

(** ** Aggregation *)

Section Aggregation.

Variable feedparser_parse : str → outcome (list feed_entry).

(** The loop over the entries of one feed appends the accepted ones,
    and stops at the first entry it cannot read. *)
Lemma append_loop_run entries s :
  for_each entries (λ entry, info ← lift (article_info entry); append_entry info) s
  = (from_option Raise (Ok ()) (first_error entries),
     {| all_entries := all_entries s ++ accepted entries; fetch_log := fetch_log s |}).
Proof.
  revert s. induction entries as [|entry entries IH]; intros [acc lg].
  - cbn. by rewrite app_nil_r.
  - cbn [for_each accepted first_error].
    unfold mbind at 1, prog_bind. unfold mbind at 1, prog_bind. unfold lift at 1.
    destruct (article_info entry) as [a|e].
    + unfold append_entry at 1, modify. rewrite IH. cbn. by rewrite <- app_assoc.
    + cbn. by rewrite app_nil_r.
Qed.

(** One feed: whatever happens inside the [try], the iteration ends
    normally. *)
Lemma fetch_feed_run feed_url s :
  fetch_feed feedparser_parse feed_url s
  = (Ok (), {| all_entries := all_entries s ++ feed_articles feedparser_parse feed_url;
               fetch_log := fetch_log s ++ feed_events feedparser_parse feed_url |}).
Proof.
  unfold fetch_feed, try_except, feed_articles, feed_events.
  unfold mbind, prog_bind, lift.
  destruct (feedparser_parse feed_url) as [entries|e].
  - rewrite append_loop_run. destruct (first_error entries) as [e|]; cbn.
    + done.
    + by rewrite app_nil_r.
  - destruct s. cbn. by rewrite app_nil_r.
Qed.

Lemma fetch_loop_run feeds s :
  for_each feeds (fetch_feed feedparser_parse) s
  = (Ok (), {| all_entries := all_entries s ++ flat_map (feed_articles feedparser_parse) feeds;
               fetch_log := fetch_log s ++ flat_map (feed_events feedparser_parse) feeds |}).
Proof.
  revert s. induction feeds as [|feed_url feeds IH]; intros s.
  - destruct s. cbn. by rewrite !app_nil_r.
  - cbn [for_each flat_map]. unfold mbind, prog_bind.
    rewrite fetch_feed_run, IH. cbn. by rewrite <- !app_assoc.
Qed.

(** The body of [fetch_rss_entries] returns the concatenation, feed by
    feed, of what each feed contributes, and never raises. *)
Lemma fetch_rss_entries_uncached_run feeds w :
  fetch_rss_entries_uncached feedparser_parse feeds w
  = (Ok (flat_map (feed_articles feedparser_parse) feeds), write_log (flat_map (feed_events feedparser_parse) feeds) w).
Proof.
  unfold fetch_rss_entries_uncached, fetch_rss_entries_body.
  unfold mbind, prog_bind. by rewrite fetch_loop_run.
Qed.

Lemma feed_articles_fails feed_url :
  feed_fails feedparser_parse feed_url → feed_articles feedparser_parse feed_url = [].
Proof. intros [e He]. unfold feed_articles. by rewrite He. Qed.

Lemma accepted_all entries articles :
  Forall2 (λ entry a, article_info entry = Ok a) entries articles →
  accepted entries = articles.
Proof. induction 1 as [|entry a entries articles H _ IH]; cbn; [done|]. by rewrite H, IH. Qed.

Lemma feed_articles_succeeds feed_url articles :
  feed_succeeds feedparser_parse feed_url articles → feed_articles feedparser_parse feed_url = articles.
Proof.
  intros (entries & He & H). unfold feed_articles. rewrite He.
  by apply accepted_all.
Qed.

Lemma aggregate_articles feeds articles :
  aggregate feedparser_parse feeds articles → flat_map (feed_articles feedparser_parse) feeds = articles.
Proof.
  induction 1 as [|feed_url feeds articles Hf _ IH|feed_url feeds fetched articles Hs _ IH];
    cbn [flat_map].
  - done.
  - by rewrite (feed_articles_fails _ Hf), IH.
  - by rewrite (feed_articles_succeeds _ _ Hs), IH.
Qed.

(** The accepted articles are those of a prefix of the entries, in the
    order of the entries. *)
Lemma accepted_prefix entries :
  Forall2 (λ entry a, article_info entry = Ok a)
    (take (length (accepted entries)) entries) (accepted entries).
Proof.
  induction entries as [|entry entries IH]; cbn [accepted]; [constructor|].
  destruct (article_info entry) as [a|e] eqn:E; cbn; by constructor.
Qed.

End Aggregation.

(** ** The cached functions *)

Lemma cache_hit_Some {V} now (stored : option (N * V)) v :
  cache_hit now stored = Some v → ∃ t, stored = Some (t, v).
Proof.
  destruct stored as [[t v']|]; cbn; [|done].
  destruct (now <? t + ttl)%N; [|done]. intros [= ->]. by exists t.
Qed.

Lemma cache_hit_fresh {V} now t (v : V) :
  (now < t + ttl)%N → cache_hit now (Some (t, v)) = Some v.
Proof. intros H. cbn. by apply N.ltb_lt in H as ->. Qed.

Section Caching.

Variable feedparser_parse : str → outcome (list feed_entry).
Variable date_parser_parse : str → outcome datetime.

Lemma process_loop_filter ps kws entries results :
  foldl (λ results a,
           let tags := tag_keywords a ps kws in
           match tags with
           | [] => results
           | _ :: _ =>
               results ++ [ {| Title := title a;
                               Date := published_date date_parser_parse a;
                               Link := link a;
                               Keywords := join (py ", ") tags;
                               Summary := summary a |} ]
           end) results entries
  = results ++ (emitted date_parser_parse ps kws
                  <$> filter (λ a, tag_keywords a ps kws ≠ []) entries).
Proof.
  revert results. induction entries as [|a entries IH]; intros results; cbn [foldl].
  - by rewrite filter_nil, app_nil_r.
  - rewrite IH, filter_cons. cbn zeta.
    destruct (decide (tag_keywords a ps kws ≠ [])) as [Hne|Heq].
    + rewrite fmap_cons. unfold emitted at 2.
      destruct (tag_keywords a ps kws) as [|kw tags]; [done|].
      by rewrite <- app_assoc.
    + apply dec_stable in Heq. by rewrite Heq.
Qed.

(** The loop of [process_rss_feeds] emits, in order, one row for each
    entry that has a tag. *)
Lemma process_entries_filter entries ps kws :
  process_entries date_parser_parse entries ps kws
  = emitted date_parser_parse ps kws <$> filter (λ a, tag_keywords a ps kws ≠ []) entries.
Proof. unfold process_entries. by rewrite process_loop_filter. Qed.

Lemma fetch_rss_entries_run now feeds w :
  cache_sound feedparser_parse date_parser_parse w →
  ∃ w', fetch_rss_entries feedparser_parse now feeds w
          = (Ok (flat_map (feed_articles feedparser_parse) feeds), w')
        ∧ cache_sound feedparser_parse date_parser_parse w'.
Proof.
  intros [Hf Hp]. unfold fetch_rss_entries, cache_data.
  destruct (cache_hit now (fetch_cache w !! feeds)) as [v|] eqn:E.
  - apply cache_hit_Some in E as [t E]. apply Hf in E as ->. by eexists.
  - rewrite fetch_rss_entries_uncached_run. eexists. split; [done|]. split.
    + intros feeds' t v. cbn. rewrite lookup_insert_Some.
      intros [[<- [= <- <-]]|[_ H]]; [done|]. by eapply Hf.
    + intros feeds' ps kws t v. cbn. by apply Hp.
Qed.

Lemma process_rss_feeds_run now feeds ps kws w :
  cache_sound feedparser_parse date_parser_parse w →
  ∃ w', process_rss_feeds feedparser_parse date_parser_parse now feeds ps kws w
          = (Ok (process_entries date_parser_parse
                   (flat_map (feed_articles feedparser_parse) feeds) ps kws), w')
        ∧ cache_sound feedparser_parse date_parser_parse w'.
Proof.
  intros Hw. pose proof Hw as [Hf Hp]. unfold process_rss_feeds, cache_data.
  destruct (cache_hit now (process_cache w !! (feeds, ps, kws))) as [v|] eqn:E.
  - apply cache_hit_Some in E as [t E]. apply Hp in E as ->. by eexists.
  - unfold process_rss_feeds_body. unfold mbind, prog_bind.
    destruct (fetch_rss_entries_run now feeds w Hw) as (w1 & -> & [Hf1 Hp1]).
    cbn. eexists. split; [done|]. split.
    + intros feeds' t v. cbn. by apply Hf1.
    + intros feeds' ps' kws' t v. cbn. rewrite lookup_insert_Some.
      intros [[[= <- <- <-] [= <- <-]]|[_ H]]; [done|]. by eapply Hp1.
Qed.

Lemma empty_world_sound : cache_sound feedparser_parse date_parser_parse empty_world.
Proof. split; intros *; cbn; by rewrite lookup_empty. Qed.

(** Whatever has been called before, the caches hold only values the
    functions compute from the feed source. *)
Lemma reachable_sound w :
  reachable feedparser_parse date_parser_parse w →
  cache_sound feedparser_parse date_parser_parse w.
Proof.
  induction 1 as [|now feeds w _ IH|now feeds ps kws w _ IH].
  - apply empty_world_sound.
  - by destruct (fetch_rss_entries_run now feeds w IH) as (w' & -> & H).
  - by destruct (process_rss_feeds_run now feeds ps kws w IH) as (w' & -> & H).
Qed.


End Caching.

(** ** Dates *)










Section Dates.

Variable date_parser_parse : str → outcome datetime.




End Dates.

(** ** The claims about aggregation and the pipeline *)

Lemma tag_keywords_ext a b ps kws :
  title a = title b → summary a = summary b →
  tag_keywords a ps kws = tag_keywords b ps kws.
Proof. intros Ht Hs. unfold tag_keywords. by rewrite Ht, Hs. Qed.

(** [fetch_rss_entries] returns, whatever the cache holds. *)
Lemma fetch_rss_entries_returns src now feeds w :
  ∃ entries w', fetch_rss_entries src now feeds w = (Ok entries, w').
Proof.
  unfold fetch_rss_entries, cache_data.
  destruct (cache_hit now (fetch_cache w !! feeds)) as [v|]; [by eexists _, _|].
  rewrite fetch_rss_entries_uncached_run. by eexists _, _.
Qed.

(** C3. Per-feed failure isolation.  When each feed of the list either
    fails to be fetched or is fetched with well-formed entries,
    [fetch_rss_entries] returns exactly the articles of the fetched
    feeds, concatenated in feed order (so for a failing feed followed by
    a feed with three entries, exactly those three), whether the body
    runs or a cached value is served; and no call of
    [fetch_rss_entries] ever raises. *)
Theorem fetch_failure_isolation
    (feedparser_parse : str → outcome (list feed_entry))
    (date_parser_parse : str → outcome datetime)
    (now : N) (feeds : list str) (articles : list article) (w : world) :
  aggregate feedparser_parse feeds articles →
  reachable feedparser_parse date_parser_parse w →
  (∃ w', fetch_rss_entries feedparser_parse now feeds w = (Ok articles, w'))
  ∧ (∀ w0, ∃ w', fetch_rss_entries_uncached feedparser_parse feeds w0 = (Ok articles, w'))
  ∧ (∀ now0 feeds0 w0, ∃ entries w',
       fetch_rss_entries feedparser_parse now0 feeds0 w0 = (Ok entries, w')).
Proof.
  intros Hagg Hw. apply aggregate_articles in Hagg as <-.
  apply reachable_sound in Hw. split; [|split].
  - destruct (fetch_rss_entries_run _ date_parser_parse now feeds w Hw) as (w' & H & _).
    by exists w'.
  - intros w0. rewrite fetch_rss_entries_uncached_run. by eexists.
  - intros *. apply fetch_rss_entries_returns.
Qed.

Lemma fetch_failure_isolation_witness :
  length Sample.articles = 3
  ∧ ∃ w', fetch_rss_entries Sample.feeds 0 [py "F1"; py "F2"] empty_world
          = (Ok Sample.articles, w').
Proof.
  split; [reflexivity|].
  refine (proj1 (fetch_failure_isolation Sample.feeds Sample.date_parser 0
    [py "F1"; py "F2"] Sample.articles empty_world _ (reachable_start _ _))).
  apply aggregate_failed; [by eexists|].
  change Sample.articles with (Sample.articles ++ []).
  apply aggregate_fetched; [|apply aggregate_nil].
  eexists. split; [reflexivity|]. repeat constructor.
Defined.

(** C6. Order preservation.  [fetch_rss_entries] returns the
    concatenation, in the order of the feed list, of what each feed
    contributes, and a feed contributes the articles of its entries in
    the order the source returned them (up to the first entry without a
    title or a link, if there is one); [process_rss_feeds] emits one
    row for each of those articles that has a tag, in that same order. *)
Theorem order_preserved
    (feedparser_parse : str → outcome (list feed_entry))
    (date_parser_parse : str → outcome datetime)
    (now : N) (feeds : list str) (ps : list re.pattern) (kws : list str) (w : world) :
  reachable feedparser_parse date_parser_parse w →
  ∃ entries,
    entries = flat_map (feed_articles feedparser_parse) feeds
    ∧ (∃ w', fetch_rss_entries feedparser_parse now feeds w = (Ok entries, w'))
    ∧ (∀ feed_url fetched, feedparser_parse feed_url = Ok fetched →
         Forall2 (λ entry a, article_info entry = Ok a)
           (take (length (feed_articles feedparser_parse feed_url)) fetched)
           (feed_articles feedparser_parse feed_url))
    ∧ (∃ w', process_rss_feeds feedparser_parse date_parser_parse now feeds ps kws w
             = (Ok (emitted date_parser_parse ps kws
                      <$> filter (λ a, tag_keywords a ps kws ≠ []) entries), w')).
Proof.
  intros Hw. apply reachable_sound in Hw. eexists. split; [reflexivity|].
  split; [|split].
  - destruct (fetch_rss_entries_run _ _ now feeds w Hw) as (w' & H & _). by exists w'.
  - intros feed_url fetched H. unfold feed_articles. rewrite H. apply accepted_prefix.
  - destruct (process_rss_feeds_run _ _ now feeds ps kws w Hw) as (w' & H & _).
    exists w'. by rewrite <- process_entries_filter.
Qed.

Lemma order_preserved_witness :
  ∃ w', process_rss_feeds Sample.feeds Sample.date_parser 0 [py "F1"; py "F2"]
          (keyword_atoms <$> KEYWORDS) KEYWORDS empty_world
        = (Ok (emitted Sample.date_parser (keyword_atoms <$> KEYWORDS) KEYWORDS
                 <$> filter (λ a, tag_keywords a (keyword_atoms <$> KEYWORDS) KEYWORDS ≠ [])
                       (flat_map (feed_articles Sample.feeds) [py "F1"; py "F2"])), w').
Proof.
  destruct (order_preserved Sample.feeds Sample.date_parser 0 [py "F1"; py "F2"]
              (keyword_atoms <$> KEYWORDS) KEYWORDS empty_world (reachable_start _ _))
    as (entries & -> & _ & _ & H).
  exact H.
Defined.

(** C5. Zero-match drop.  Every row emitted by [process_rss_feeds]
    comes from an aggregated entry whose list of matched keywords is
    not empty (its Keywords field joins that list), and an aggregated
    entry that matches no selected keyword has no row: no emitted row
    carries its title and summary. *)
Theorem zero_match_dropped
    (feedparser_parse : str → outcome (list feed_entry))
    (date_parser_parse : str → outcome datetime)
    (now : N) (feeds : list str) (ps : list re.pattern) (kws : list str)
    (w : world) (entries : list article) (results : list result) :
  reachable feedparser_parse date_parser_parse w →
  (fetch_rss_entries feedparser_parse now feeds w).1 = Ok entries →
  (process_rss_feeds feedparser_parse date_parser_parse now feeds ps kws w).1 = Ok results →
  (∀ r, r ∈ results →
     ∃ a, a ∈ entries ∧ tag_keywords a ps kws ≠ []
          ∧ r = emitted date_parser_parse ps kws a
          ∧ Keywords r = join (py ", ") (tag_keywords a ps kws))
  ∧ (∀ a, a ∈ entries → tag_keywords a ps kws = [] →
       ∀ r, r ∈ results → ¬ (Title r = title a ∧ Summary r = summary a)).
Proof.
  intros Hw Hfetch Hproc. apply reachable_sound in Hw.
  destruct (fetch_rss_entries_run _ _ now feeds w Hw) as (w1' & Hf & _).
  rewrite Hf in Hfetch. injection Hfetch as <-.
  destruct (process_rss_feeds_run _ _ now feeds ps kws w Hw) as (w2' & Hp & _).
  rewrite Hp in Hproc. injection Hproc as <-.
  rewrite process_entries_filter.
  assert (Hrow : ∀ r,
    r ∈ emitted date_parser_parse ps kws
          <$> filter (λ a, tag_keywords a ps kws ≠ [])
                (flat_map (feed_articles feedparser_parse) feeds) →
    ∃ a, a ∈ flat_map (feed_articles feedparser_parse) feeds
         ∧ tag_keywords a ps kws ≠ [] ∧ r = emitted date_parser_parse ps kws a).
  { intros r Hr. apply list_elem_of_fmap in Hr as (a & -> & Ha).
    apply list_elem_of_filter in Ha as [Hne Ha]. by exists a. }
  split.
  - intros r Hr. destruct (Hrow r Hr) as (a & Ha & Hne & ->). by exists a.
  - intros a Ha Hnone r Hr [Ht Hs].
    destruct (Hrow r Hr) as (b & Hb & Hne & ->). cbn in Ht, Hs.
    apply Hne. by rewrite (tag_keywords_ext b a ps kws Ht Hs).
Qed.

Lemma zero_match_dropped_witness :
  Forall (λ r, ¬ (Title r = py "Weather report" ∧ Summary r = py "details here"))
    (emitted Sample.date_parser (keyword_atoms <$> KEYWORDS) KEYWORDS
       <$> filter (λ a, tag_keywords a (keyword_atoms <$> KEYWORDS) KEYWORDS ≠ [])
             Sample.articles).
Proof.
  pose proof (zero_match_dropped Sample.feeds Sample.date_parser 0 [py "F1"; py "F2"]
    (keyword_atoms <$> KEYWORDS) KEYWORDS empty_world
    Sample.articles
    (emitted Sample.date_parser (keyword_atoms <$> KEYWORDS) KEYWORDS
       <$> filter (λ a, tag_keywords a (keyword_atoms <$> KEYWORDS) KEYWORDS ≠ [])
             Sample.articles)
    (reachable_start _ _) ltac:(vm_compute; reflexivity) ltac:(vm_compute; reflexivity))
    as [_ Hdrop].
  apply Forall_forall. intros r Hr. refine (Hdrop Sample.weather _ _ r Hr).
  - apply list_elem_of_lookup. by exists 1%nat.
  - vm_compute. reflexivity.
Defined.







(** * Further properties of the code *)

(** ** Normalisation and case *)

Lemma filter_all {A} (P : A → Prop) `{!∀ x, Decision (P x)} (l : list A) :
  Forall P l → filter P l = l.
Proof.
  induction 1 as [|x l Hx _ IH]; [done|].
  by rewrite filter_cons, decide_True, IH.
Qed.

Lemma normalize_text_clean x :
  Forall (λ c, c ∉ string_punctuation) (normalize_text x)
  ∧ lower (normalize_text x) = normalize_text x.
Proof.
  induction x as [|c x [IH1 IH2]]; [by split|].
  rewrite normalize_text_cons. destruct (decide (c ∈ string_punctuation)) as [Hc|Hc]; [done|].
  split.
  - constructor; [|done]. intros Hl. apply Hc. apply (bool_decide_eq_true_1 _).
    rewrite <- lower_char_punctuation. by apply bool_decide_eq_true_2.
  - unfold lower in *. cbn [map]. by rewrite lower_char_idem, IH2.
Qed.

(** X1. The result of [normalize_text] holds no ASCII punctuation
    character and is left as it is by lowercasing; and the texts that
    [normalize_text] leaves unchanged are exactly the texts without
    ASCII punctuation that lowercasing leaves unchanged. *)
Theorem normalize_text_fixed_points (x : str) :
  Forall (λ c, c ∉ string_punctuation) (normalize_text x)
  ∧ lower (normalize_text x) = normalize_text x
  ∧ (normalize_text x = x
     ↔ Forall (λ c, c ∉ string_punctuation) x ∧ lower x = x).
Proof.
  destruct (normalize_text_clean x) as [H1 H2].
  split; [done|]. split; [done|]. split.
  - intros Hx. by rewrite Hx in H1, H2.
  - intros [Hp Hl]. unfold normalize_text, translate_delete. rewrite Hl.
    by apply filter_all.
Qed.

Lemma searched_text_split a :
  searched_text a = normalize_text (title a) ++ " "%char :: normalize_text (summary a).
Proof. unfold searched_text. by rewrite !normalize_text_app. Qed.

(** X2. Matching ignores letter case and ASCII punctuation on both
    sides: two articles whose titles and summaries have the same
    normalised form, searched for two keywords that are equal up to
    letter case, give the same answer, and the tags of the two articles
    are the same for any patterns and keywords. *)
Theorem matching_ignores_case_and_punctuation (a b : article) (kw kw' : str)
    (ps : list re.pattern) (K : list str) :
  normalize_text (title a) = normalize_text (title b) →
  normalize_text (summary a) = normalize_text (summary b) →
  lower kw = lower kw' →
  keyword_matches kw (normalize_text (title a ++ py " " ++ summary a))
  = keyword_matches kw' (normalize_text (title b ++ py " " ++ summary b))
  ∧ tag_keywords a ps K = tag_keywords b ps K.
Proof.
  intros Ht Hs Hk.
  assert (Hc : searched_text a = searched_text b)
    by (by rewrite !searched_text_split, Ht, Hs).
  unfold searched_text in Hc. split.
  - unfold keyword_matches, compile_keyword. by rewrite Hc, Hk.
  - unfold tag_keywords. by rewrite Hc.
Qed.

Lemma matching_ignores_case_and_punctuation_witness :
  tag_keywords (Sample.blank "SPICY wings, at K.F.C!" "New: Taco-Bell menu")
    (keyword_atoms <$> KEYWORDS) KEYWORDS
  = tag_keywords (Sample.blank "spicy wings at kfc" "new tacobell menu")
      (keyword_atoms <$> KEYWORDS) KEYWORDS.
Proof.
  apply (matching_ignores_case_and_punctuation
    (Sample.blank "SPICY wings, at K.F.C!" "New: Taco-Bell menu")
    (Sample.blank "spicy wings at kfc" "new tacobell menu")
    (py "KFC") (py "kfc")); vm_compute; reflexivity.
Defined.

(** X3. The patterns compile for every keyword list, one pattern per
    keyword and in the order of the keywords: the pattern at position
    [i] is a word boundary, the characters of the lowercased keyword at
    position [i] as literals, and a word boundary.  No keyword, whatever
    characters it holds, makes the compilation raise. *)
Theorem compile_keywords_aligned (K : list str) :
  ∃ ps, compile_keywords K = Ok ps
    ∧ length ps = length K
    ∧ (∀ i, ps !! i
         = (λ kw, re.Boundary :: (re.Lit <$> lower kw) ++ [re.Boundary]) <$> K !! i).
Proof.
  exists (keyword_atoms <$> K). split; [apply compile_keywords_ok|].
  split; [apply length_fmap|]. intros i. by rewrite list_lookup_fmap.
Qed.

(** X4. [zip] stops at the shorter list: patterns beyond the number of
    keywords and keywords beyond the number of patterns play no part in
    the tags, and there are at most as many tags as the shorter list is
    long. *)
Theorem tag_keywords_surplus_ignored (a : article) (ps : list re.pattern) (K : list str) :
  tag_keywords a ps K = tag_keywords a (take (length K) ps) (take (length ps) K)
  ∧ (length (tag_keywords a ps K) ≤ length ps `min` length K)%nat.
Proof.
  split.
  - by rewrite !tag_keywords_filter, zip_with_take_both.
  - rewrite tag_keywords_filter, length_fmap.
    etrans; [apply length_filter|]. by rewrite length_zip_with.
Qed.

(** ** Where a keyword can match *)

Lemma word_after_before_space post S :
  re.word_after (post ++ " "%char :: S) = re.word_after post.
Proof. by destruct post. Qed.

Lemma word_before_after_space T pre :
  re.word_before (last (T ++ " "%char :: pre)) = re.word_before (last pre).
Proof.
  rewrite last_app. destruct pre as [|c pre]; [done|].
  rewrite last_cons_cons. by destruct (last (c :: pre)) eqn:E; [|apply last_None in E].
Qed.

(** An occurrence of a run of word characters in [T ++ " " ++ S] lies
    in [T] or in [S]. *)
Lemma occurrence_in_joined (T S lit pre post : str) :
  Forall (λ c, re.is_word c = true) lit → lit ≠ [] →
  pre ++ lit ++ post = T ++ " "%char :: S →
  (∃ post', T = pre ++ lit ++ post' ∧ post = post' ++ " "%char :: S)
  ∨ (∃ pre', S = pre' ++ lit ++ post ∧ pre = T ++ " "%char :: pre').
Proof.
  intros Hw Hne Heq.
  assert (Hsp : " "%char ∉ lit).
  { intros Hin. rewrite Forall_forall in Hw. by specialize (Hw _ Hin). }
  apply app_eq_app in Heq as [l [[-> Heq]|[-> Heq]]].
  - destruct l as [|x l].
    + destruct lit as [|c lit]; [done|]. injection Heq as <- _.
      destruct Hsp. by left.
    + injection Heq as <- ->. right. by exists l.
  - apply app_eq_app in Heq as [l2 [[-> Heq]|[-> ->]]].
    + destruct l2 as [|x l2].
      * cbn in Heq. subst post. left. exists []. by rewrite !app_nil_r.
      * injection Heq as <- _. destruct Hsp. apply elem_of_app. right. by left.
    + left. by exists l2.
Qed.

(** X5. A keyword made of word characters only (one word) is returned
    exactly when it stands free, lowercased, in the normalised title or
    in the normalised summary: the space that joins title and summary
    keeps a word of the title and a word of the summary apart. *)
Theorem single_word_keyword_tagged (a : article) (kw : str) (p : re.pattern) :
  compile_keyword kw = Ok p →
  lower kw ≠ [] → Forall (λ c, re.is_word c = true) (lower kw) →
  tag_keywords a [p] [kw] = [kw]
  ↔ stands_free kw (normalize_text (title a)) ∨ stands_free kw (normalize_text (summary a)).
Proof.
  rewrite compile_keyword_ok. intros [= <-] Hne Hw.
  assert (Hwd : word_delimited (lower kw)).
  { split.
    - destruct (lower kw) as [|c l]; [done|]. by apply Forall_inv in Hw.
    - destruct (last (lower kw)) as [c|] eqn:E; [|by apply last_None in E].
      apply last_Some in E as [l E]. rewrite E in Hw.
      apply Forall_app in Hw as [_ Hc]. by apply Forall_inv in Hc. }
  rewrite tag_single.
  assert (re.search (keyword_atoms kw) (searched_text a) = true
          ↔ stands_free kw (normalize_text (title a))
            ∨ stands_free kw (normalize_text (summary a))) as <-.
  { rewrite (keyword_search_free_standing kw _ Hwd), searched_text_split. split.
    - intros (pre & post & Heq & [Hb Ha]). symmetry in Heq.
      apply occurrence_in_joined in Heq as [(post' & HT & ->)|(pre' & HS & ->)]; try done.
      + left. exists pre, post'. split; [done|]. split; [done|].
        by rewrite word_after_before_space in Ha.
      + right. exists pre', post. split; [done|]. split; [|done].
        by rewrite word_before_after_space in Hb.
    - intros [(pre & post & -> & [Hb Ha])|(pre & post & -> & [Hb Ha])].
      + exists pre, (post ++ " "%char :: normalize_text (summary a)).
        split; [by rewrite <- !app_assoc|]. split; [done|].
        by rewrite word_after_before_space.
      + exists (normalize_text (title a) ++ " "%char :: pre), post.
        split; [by rewrite <- app_assoc|]. split; [|done].
        by rewrite word_before_after_space. }
  destruct (re.search _ _); by split.
Qed.

Lemma single_word_keyword_tagged_witness :
  tag_keywords (Sample.blank "Weather report" "Free fries at KFC today")
    [keyword_atoms (py "KFC")] [py "KFC"] = [py "KFC"].
Proof.
  apply (single_word_keyword_tagged
    (Sample.blank "Weather report" "Free fries at KFC today") (py "KFC")
    (keyword_atoms (py "KFC"))).
  - vm_compute. reflexivity.
  - vm_compute. discriminate.
  - apply (bool_decide_unpack _). by vm_compute.
  - right. exists (py "free fries at "), (py " today").
    split; [vm_compute; reflexivity|]. split; vm_compute; reflexivity.
Defined.

(** ** Selecting keywords *)

Lemma select_compiled (K sel : list str) :
  select_keyword_patterns (keyword_atoms <$> K) K sel
  = keyword_atoms <$> filter (λ k, k ∈ sel) K.
Proof.
  unfold select_keyword_patterns.
  induction K as [|kw K IH]; [done|].
  rewrite fmap_cons. cbn [zip_with]. rewrite !filter_cons. cbn [snd].
  destruct (decide (kw ∈ sel)); [rewrite !fmap_cons|]; by rewrite IH.
Qed.

(** X6. The selected patterns are the compiled patterns of the
    configured keywords that belong to the selection, in the configured
    order and as often as configured, whatever the order of the
    selection.  With everything selected they are all the patterns; and
    when the selection lists its keywords as the configuration does,
    tagging returns the selected keywords whose own pattern matches. *)
Theorem selected_patterns_follow_configuration (K sel : list str) (ps : list re.pattern) :
  compile_keywords K = Ok ps →
  compile_keywords (filter (λ k, k ∈ sel) K) = Ok (select_keyword_patterns ps K sel)
  ∧ select_keyword_patterns ps K K = ps
  ∧ (filter (λ k, k ∈ sel) K = sel →
     ∀ a, tag_keywords a (select_keyword_patterns ps K sel) sel
          = filter (λ kw, Is_true (keyword_matches kw
                      (normalize_text (title a ++ py " " ++ summary a)))) sel).
Proof.
  rewrite compile_keywords_ok. intros [= <-]. rewrite !select_compiled.
  split; [apply compile_keywords_ok|]. split.
  - f_equal. apply filter_all. by apply Forall_forall.
  - intros Hsel a. rewrite Hsel, tag_keywords_compiled.
    apply list_filter_iff. intros kw. unfold keyword_matches, searched_text.
    by rewrite compile_keyword_ok.
Qed.

Lemma selected_patterns_follow_configuration_witness :
  select_keyword_patterns (keyword_atoms <$> KEYWORDS) KEYWORDS [py "KFC"; py "Dunkin"]
  = [keyword_atoms (py "Dunkin"); keyword_atoms (py "KFC")].
Proof.
  pose proof (proj1 (selected_patterns_follow_configuration KEYWORDS [py "KFC"; py "Dunkin"]
    (keyword_atoms <$> KEYWORDS) (compile_keywords_ok KEYWORDS))) as H.
  rewrite compile_keywords_ok in H.
  apply (f_equal (λ o, match o with Ok l => l | Raise _ => [] end)) in H.
  etrans; [symmetry; exact H|]. vm_compute. reflexivity.
Defined.

(** X7. Tags are labelled by position: the tag at position [i] of the
    selection is returned when the pattern at position [i] of the
    selected patterns matches, and that is the pattern of the [i]-th
    configured keyword belonging to the selection.  So a selection in
    another order than configured labels a match with another keyword. *)
Theorem tags_labelled_by_position (a : article) (K sel : list str)
    (ps : list re.pattern) (tag : str) :
  compile_keywords K = Ok ps →
  tag ∈ tag_keywords a (select_keyword_patterns ps K sel) sel
  ↔ ∃ i kw, sel !! i = Some tag
            ∧ filter (λ k, k ∈ sel) K !! i = Some kw
            ∧ keyword_matches kw (normalize_text (title a ++ py " " ++ summary a)) = true.
Proof.
  rewrite compile_keywords_ok. intros [= <-]. rewrite select_compiled.
  rewrite tag_keywords_filter, list_elem_of_fmap. unfold searched_text. split.
  - intros ([p t] & -> & Hin). apply list_elem_of_filter in Hin as [Hs Hin].
    apply list_elem_of_lookup in Hin as [i Hi].
    apply lookup_zip_with_Some in Hi as (p' & t' & [= <- <-] & Hp & Ht).
    apply list_lookup_fmap_Some in Hp as (kw & -> & Hkw).
    exists i, kw. split; [done|]. split; [done|].
    unfold keyword_matches. rewrite compile_keyword_ok. by apply Is_true_true.
  - intros (i & kw & Ht & Hkw & Hm). exists (keyword_atoms kw, tag). split; [done|].
    apply list_elem_of_filter. split.
    + unfold keyword_matches in Hm. rewrite compile_keyword_ok in Hm. by apply Is_true_true.
    + apply list_elem_of_lookup. exists i. apply lookup_zip_with_Some.
      exists (keyword_atoms kw), tag. split; [done|]. split; [|done].
      apply list_lookup_fmap_Some. by exists kw.
Qed.

Lemma tags_labelled_by_position_witness :
  py "KFC" ∈ tag_keywords (Sample.blank "Dunkin opens a new store" "")
    (select_keyword_patterns (keyword_atoms <$> KEYWORDS) KEYWORDS [py "KFC"; py "Dunkin"])
    [py "KFC"; py "Dunkin"]
  ∧ tag_keywords (Sample.blank "Dunkin opens a new store" "")
      (select_keyword_patterns (keyword_atoms <$> KEYWORDS) KEYWORDS [py "KFC"; py "Dunkin"])
      [py "KFC"; py "Dunkin"] = [py "KFC"].
Proof.
  split; [|vm_compute; reflexivity].
  apply (tags_labelled_by_position (Sample.blank "Dunkin opens a new store" "")
    KEYWORDS [py "KFC"; py "Dunkin"] (keyword_atoms <$> KEYWORDS) (py "KFC")).
  - vm_compute. reflexivity.
  - exists 0%nat, (py "Dunkin"). repeat split; vm_compute; reflexivity.
Defined.

(** ** Aggregation: malformed entries and composition *)

Lemma accepted_until_malformed (good : list feed_entry) (articles : list article)
    (bad : feed_entry) (rest : list feed_entry) (e : exn) :
  Forall2 (λ entry a, article_info entry = Ok a) good articles →
  article_info bad = Raise e →
  accepted (good ++ bad :: rest) = articles
  ∧ first_error (good ++ bad :: rest) = Some e.
Proof.
  intros Hgood Hbad. induction Hgood as [|entry a good articles H _ [IH1 IH2]]; cbn.
  - by rewrite Hbad.
  - by rewrite H, IH1, IH2.
Qed.

(** X8. An entry without a title or without a link ends the work on its
    feed: the articles of the entries before it are kept, the entry and
    everything after it in that feed is lost, and the failure is
    reported once, as an [AttributeError] naming the title when the
    title is absent and the link otherwise. *)
Theorem malformed_entry_cuts_feed
    (feedparser_parse : str → outcome (list feed_entry))
    (feed_url : str) (good : list feed_entry) (articles : list article)
    (bad : feed_entry) (rest : list feed_entry) (w : world) :
  feedparser_parse feed_url = Ok (good ++ bad :: rest) →
  Forall2 (λ entry a, article_info entry = Ok a) good articles →
  ¬ well_formed bad →
  fetch_rss_entries_uncached feedparser_parse [feed_url] w
  = (Ok articles,
     write_log [FetchFailed feed_url
                  (AttributeError (match entry_title bad with
                                  | Some _ => py "link"
                                  | None => py "title"
                                  end))] w).
Proof.
  intros Hsrc Hgood Hbad. rewrite fetch_rss_entries_uncached_run. cbn [flat_map].
  unfold feed_articles, feed_events. rewrite Hsrc, !app_nil_r.
  assert (article_info bad
          = Raise (AttributeError (match entry_title bad with
                                  | Some _ => py "link"
                                  | None => py "title"
                                  end))) as He.
  { unfold well_formed in Hbad. unfold article_info.
    destruct (entry_title bad) as [t|]; [|done].
    destruct (entry_link bad) as [l|]; [|done].
    destruct Hbad. by split. }
  destruct (accepted_until_malformed good articles bad rest _ Hgood He) as [-> ->].
  done.
Qed.

Lemma malformed_entry_cuts_feed_witness :
  fetch_rss_entries_uncached Sample.cut_feed [py "F"] empty_world
  = (Ok [Sample.weather],
     write_log [FetchFailed (py "F") (AttributeError (py "link"))] empty_world).
Proof.
  refine (malformed_entry_cuts_feed Sample.cut_feed (py "F")
    [Sample.entry "Weather report" "2024-01-15"] [Sample.weather] Sample.no_link
    [Sample.entry "Lost" "2024-01-16"] empty_world eq_refl _ _).
  - repeat constructor.
  - intros [_ [l Hl]]. discriminate.
Defined.

(** X9. Aggregation composes: fetching the concatenation of two feed
    lists returns the entries of the first list followed by the entries
    of the second, and reports the failures of the first followed by
    those of the second. *)
Theorem fetch_of_concatenation
    (feedparser_parse : str → outcome (list feed_entry))
    (feeds1 feeds2 : list str) (w : world) :
  ∃ entries1 entries2,
    (fetch_rss_entries_uncached feedparser_parse feeds1 w).1 = Ok entries1
    ∧ (fetch_rss_entries_uncached feedparser_parse feeds2 w).1 = Ok entries2
    ∧ (fetch_rss_entries_uncached feedparser_parse (feeds1 ++ feeds2) w).1
      = Ok (entries1 ++ entries2)
    ∧ (fetch_rss_entries_uncached feedparser_parse (feeds1 ++ feeds2) w).2
      = (fetch_rss_entries_uncached feedparser_parse feeds2
           (fetch_rss_entries_uncached feedparser_parse feeds1 w).2).2.
Proof.
  eexists _, _. rewrite !fetch_rss_entries_uncached_run. cbn [fst snd].
  split; [done|]. split; [done|]. rewrite !flat_map_app. split; [done|].
  unfold write_log. cbn. by rewrite app_assoc.
Qed.

(** ** The two caches *)

Section CacheBehaviour.

Variable src1 src2 : str → outcome (list feed_entry).
Variable dp1 dp2 : str → outcome datetime.

(** The state a cold run leaves behind. *)
Lemma process_cold now feeds ps kws :
  process_rss_feeds src1 dp1 now feeds ps kws empty_world
  = (Ok (process_entries dp1 (flat_map (feed_articles src1) feeds) ps kws),
     {| fetch_cache := <[feeds := (now, flat_map (feed_articles src1) feeds)]> ∅;
        process_cache :=
          <[(feeds, ps, kws) :=
              (now, process_entries dp1 (flat_map (feed_articles src1) feeds) ps kws)]> ∅;
        log := flat_map (feed_events src1) feeds
               ++ [Fetched (length (flat_map (feed_articles src1) feeds))] |}).
Proof.
  unfold process_rss_feeds, cache_data. cbn [empty_world process_cache].
  rewrite lookup_empty. cbn [cache_hit].
  unfold process_rss_feeds_body, mbind, prog_bind.
  unfold fetch_rss_entries, cache_data. cbn [empty_world fetch_cache].
  rewrite lookup_empty. cbn [cache_hit].
  rewrite fetch_rss_entries_uncached_run. reflexivity.
Qed.

Lemma process_served now feeds ps kws w t v :
  process_cache w !! (feeds, ps, kws) = Some (t, v) → (now < t + ttl)%N →
  process_rss_feeds src2 dp2 now feeds ps kws w = (Ok v, w).
Proof.
  intros Hc Hf. unfold process_rss_feeds, cache_data.
  by rewrite Hc, cache_hit_fresh.
Qed.

Lemma cache_hit_stale {V} now t (v : V) :
  (t + ttl ≤ now)%N → cache_hit now (Some (t, v)) = None.
Proof. intros H. cbn. by apply N.ltb_ge in H as ->. Qed.

(** X10. A cold run logs, in feed order, the report of each feed that
    failed and then the number of fetched articles, which counts every
    aggregated entry and not only the matching ones.  A feed that cannot
    be fetched has exactly one report, a feed fetched with well-formed
    entries has none. *)
Theorem cold_run_log (now : N) (feeds : list str) (ps : list re.pattern) (kws : list str) :
  ∃ entries,
    (fetch_rss_entries src1 now feeds empty_world).1 = Ok entries
    ∧ log (process_rss_feeds src1 dp1 now feeds ps kws empty_world).2
      = flat_map (feed_events src1) feeds ++ [Fetched (length entries)]
    ∧ (∀ feed_url e, src1 feed_url = Raise e →
         feed_events src1 feed_url = [FetchFailed feed_url e])
    ∧ (∀ feed_url articles, feed_succeeds src1 feed_url articles →
         feed_events src1 feed_url = []).
Proof.
  eexists. rewrite process_cold. cbn [snd log].
  split; [|split; [reflexivity|split]].
  - unfold fetch_rss_entries, cache_data. cbn [empty_world fetch_cache].
    rewrite lookup_empty. cbn [cache_hit].
    by rewrite fetch_rss_entries_uncached_run.
  - intros feed_url e He. unfold feed_events. by rewrite He.
  - intros feed_url articles (entries & He & Hall). unfold feed_events. rewrite He.
    assert (first_error entries = None) as ->; [|done].
    clear He. induction Hall as [|entry a entries articles H _ IH]; [done|].
    cbn [first_error]. by rewrite H.
Qed.

(** X11. A cached result is served without looking at the feed source
    or the date parser: within [ttl] seconds of a cold run, a run on the
    same arguments returns the stored rows and leaves the state as it
    is, even when the source and the parser have changed meanwhile. *)
Theorem cached_result_stale (now now' : N) (feeds : list str)
    (ps : list re.pattern) (kws : list str) :
  (now' < now + ttl)%N →
  process_rss_feeds src2 dp2 now' feeds ps kws
    (process_rss_feeds src1 dp1 now feeds ps kws empty_world).2
  = process_rss_feeds src1 dp1 now feeds ps kws empty_world.
Proof.
  intros Hfresh. rewrite process_cold. cbn [snd].
  apply process_served with (t := now); [|done].
  cbn [process_cache]. by rewrite lookup_insert_eq.
Qed.

(** X12. The entries are cached apart from the rows: within [ttl]
    seconds of a cold run, a run on the same feeds with another keyword
    selection tags the entries fetched by the first run; the feeds are
    not fetched again, so a change of the source does not show. *)
Theorem entries_reused_across_selections (now now' : N) (feeds : list str)
    (ps ps' : list re.pattern) (kws kws' : list str) :
  (now' < now + ttl)%N → (ps', kws') ≠ (ps, kws) →
  (process_rss_feeds src2 dp2 now' feeds ps' kws'
     (process_rss_feeds src1 dp1 now feeds ps kws empty_world).2).1
  = Ok (process_entries dp2 (flat_map (feed_articles src1) feeds) ps' kws').
Proof.
  intros Hfresh Hne. rewrite process_cold. cbn [snd].
  unfold process_rss_feeds, cache_data. cbn [process_cache].
  rewrite lookup_insert_ne by congruence. rewrite lookup_empty. cbn [cache_hit].
  unfold process_rss_feeds_body, mbind, prog_bind.
  unfold fetch_rss_entries, cache_data. cbn [fetch_cache].
  rewrite lookup_insert_eq, cache_hit_fresh by done. reflexivity.
Qed.

(** X13. Stored values expire: from [ttl] seconds after a cold run on,
    a run on the same arguments fetches and tags again, and returns
    what a cold run on the current source and parser returns. *)
Theorem cached_result_expires (now now' : N) (feeds : list str)
    (ps : list re.pattern) (kws : list str) :
  (now + ttl ≤ now')%N →
  (process_rss_feeds src2 dp2 now' feeds ps kws
     (process_rss_feeds src1 dp1 now feeds ps kws empty_world).2).1
  = Ok (process_entries dp2 (flat_map (feed_articles src2) feeds) ps kws).
Proof.
  intros Hstale. rewrite process_cold. cbn [snd].
  unfold process_rss_feeds, cache_data. cbn [process_cache].
  rewrite lookup_insert_eq, cache_hit_stale by done.
  unfold process_rss_feeds_body, mbind, prog_bind.
  unfold fetch_rss_entries, cache_data. cbn [fetch_cache].
  rewrite lookup_insert_eq, cache_hit_stale by done.
  rewrite fetch_rss_entries_uncached_run. reflexivity.
Qed.

End CacheBehaviour.

Lemma cached_result_stale_witness :
  (process_rss_feeds Sample.cut_feed Sample.date_parser 3599 [py "F1"; py "F2"]
     (keyword_atoms <$> KEYWORDS) KEYWORDS
     (process_rss_feeds Sample.feeds Sample.date_parser 0 [py "F1"; py "F2"]
        (keyword_atoms <$> KEYWORDS) KEYWORDS empty_world).2).1
  = (process_rss_feeds Sample.feeds Sample.date_parser 0 [py "F1"; py "F2"]
       (keyword_atoms <$> KEYWORDS) KEYWORDS empty_world).1.
Proof.
  exact (f_equal fst (cached_result_stale Sample.feeds Sample.cut_feed
    Sample.date_parser Sample.date_parser 0 3599 [py "F1"; py "F2"]
    (keyword_atoms <$> KEYWORDS) KEYWORDS eq_refl)).
Defined.

Lemma entries_reused_across_selections_witness :
  (process_rss_feeds Sample.cut_feed Sample.date_parser 3599 [py "F1"; py "F2"]
     [keyword_atoms (py "KFC")] [py "KFC"]
     (process_rss_feeds Sample.feeds Sample.date_parser 0 [py "F1"; py "F2"]
        (keyword_atoms <$> KEYWORDS) KEYWORDS empty_world).2).1
  = Ok (process_entries Sample.date_parser
          (flat_map (feed_articles Sample.feeds) [py "F1"; py "F2"])
          [keyword_atoms (py "KFC")] [py "KFC"]).
Proof.
  refine (entries_reused_across_selections Sample.feeds Sample.cut_feed
    Sample.date_parser Sample.date_parser 0 3599 [py "F1"; py "F2"]
    (keyword_atoms <$> KEYWORDS) [keyword_atoms (py "KFC")] KEYWORDS [py "KFC"] eq_refl _).
  intros H. apply (f_equal (λ x, length x.2)) in H. vm_compute in H. discriminate.
Defined.

Lemma cached_result_expires_witness :
  (process_rss_feeds Sample.cut_feed Sample.date_parser 3600 [py "F1"; py "F2"]
     (keyword_atoms <$> KEYWORDS) KEYWORDS
     (process_rss_feeds Sample.feeds Sample.date_parser 0 [py "F1"; py "F2"]
        (keyword_atoms <$> KEYWORDS) KEYWORDS empty_world).2).1
  = Ok (process_entries Sample.date_parser
          (flat_map (feed_articles Sample.cut_feed) [py "F1"; py "F2"])
          (keyword_atoms <$> KEYWORDS) KEYWORDS).
Proof.
  refine (cached_result_expires Sample.feeds Sample.cut_feed
    Sample.date_parser Sample.date_parser 0 3600 [py "F1"; py "F2"]
    (keyword_atoms <$> KEYWORDS) KEYWORDS _).
  vm_compute. discriminate.
Defined.

(** ** Edge cases of the pipeline and the application *)

Lemma filter_none {A} (P : A → Prop) `{!∀ x, Decision (P x)} (l : list A) :
  (∀ x, x ∈ l → ¬ P x) → filter P l = [].
Proof.
  induction l as [|x l IH]; intros Hnone; [done|].
  rewrite filter_cons, decide_False by (apply Hnone; by left).
  apply IH. intros y Hy. apply Hnone. by right.
Qed.

Lemma tag_keywords_no_keywords a ps : tag_keywords a ps [] = [].
Proof. rewrite tag_keywords_filter. by destruct ps. Qed.

Lemma tag_keywords_no_patterns a K : tag_keywords a [] K = [].
Proof. by rewrite tag_keywords_filter. Qed.

(** X14. With no feed selected, or with an empty list of patterns or of
    keywords, the pipeline returns no row (although, in the last two
    cases, the selected feeds are fetched all the same). *)
Theorem nothing_selected
    (feedparser_parse : str → outcome (list feed_entry))
    (date_parser_parse : str → outcome datetime)
    (now : N) (feeds : list str) (ps : list re.pattern) (kws : list str) (w : world) :
  reachable feedparser_parse date_parser_parse w →
  (process_rss_feeds feedparser_parse date_parser_parse now [] ps kws w).1 = Ok []
  ∧ (process_rss_feeds feedparser_parse date_parser_parse now feeds [] kws w).1 = Ok []
  ∧ (process_rss_feeds feedparser_parse date_parser_parse now feeds ps [] w).1 = Ok [].
Proof.
  intros Hw. apply reachable_sound in Hw.
  destruct (process_rss_feeds_run _ _ now [] ps kws w Hw) as (w1 & -> & _).
  destruct (process_rss_feeds_run _ _ now feeds [] kws w Hw) as (w2 & -> & _).
  destruct (process_rss_feeds_run _ _ now feeds ps [] w Hw) as (w3 & -> & _).
  cbn [fst]. rewrite !process_entries_filter. split; [done|].
  split; f_equal; rewrite filter_none; try done; intros a _ Hne; apply Hne.
  - apply tag_keywords_no_patterns.
  - apply tag_keywords_no_keywords.
Qed.

Lemma nothing_selected_witness :
  (process_rss_feeds Sample.feeds Sample.date_parser 0 [py "F1"; py "F2"]
     (keyword_atoms <$> KEYWORDS) [] empty_world).1 = Ok [].
Proof.
  exact (proj2 (proj2 (nothing_selected Sample.feeds Sample.date_parser 0
    [py "F1"; py "F2"] (keyword_atoms <$> KEYWORDS) [] empty_world (reachable_start _ _)))).
Defined.

Section ApplicationFacts.

Variable feedparser_parse : str → outcome (list feed_entry).
Variable date_parser_parse : str → outcome datetime.

Lemma run_analysis_run now sel feeds w :
  cache_sound feedparser_parse date_parser_parse w →
  (run_analysis feedparser_parse date_parser_parse now sel feeds w).1
  = Ok (emitted date_parser_parse
          (select_keyword_patterns (keyword_atoms <$> KEYWORDS) KEYWORDS sel) sel
        <$> filter (λ a, tag_keywords a
                      (select_keyword_patterns (keyword_atoms <$> KEYWORDS) KEYWORDS sel) sel
                    ≠ [])
              (flat_map (feed_articles feedparser_parse) feeds)).
Proof.
  intros Hw. unfold run_analysis, mbind, prog_bind, lift.
  unfold KEYWORD_PATTERNS. rewrite compile_keywords_ok.
  destruct (process_rss_feeds_run _ _ now feeds
              (select_keyword_patterns (keyword_atoms <$> KEYWORDS) KEYWORDS sel) sel w Hw)
    as (w' & -> & _).
  cbn [fst]. by rewrite process_entries_filter.
Qed.

Lemma rows_ext ps sel (tags : article → list str) (l : list article) :
  (∀ a, tag_keywords a ps sel = tags a) →
  emitted date_parser_parse ps sel <$> filter (λ a, tag_keywords a ps sel ≠ []) l
  = (λ a, {| Title := title a;
             Date := published_date date_parser_parse a;
             Link := link a;
             Keywords := join (py ", ") (tags a);
             Summary := summary a |}) <$> filter (λ a, tags a ≠ []) l.
Proof.
  intros Htag. induction l as [|a l IH]; [done|].
  rewrite !filter_cons.
  destruct (decide (tag_keywords a ps sel ≠ [])) as [Hne|Hne];
    destruct (decide (tags a ≠ [])) as [Hne'|Hne']; rewrite Htag in Hne; try done.
  rewrite !fmap_cons, IH. f_equal. unfold emitted. by rewrite Htag.
Qed.

Lemma process_rss_feeds_returns now feeds ps kws w :
  ∃ results w',
    process_rss_feeds feedparser_parse date_parser_parse now feeds ps kws w = (Ok results, w').
Proof.
  unfold process_rss_feeds, cache_data.
  destruct (cache_hit now (process_cache w !! (feeds, ps, kws))) as [v|]; [by eexists _, _|].
  unfold process_rss_feeds_body, mbind, prog_bind.
  destruct (fetch_rss_entries_returns feedparser_parse now feeds w) as (entries & w1 & ->).
  by eexists _, _.
Qed.

(** X15. The analysis run by a press of the button never raises, for
    any selection and in any state.  In every state the process can be
    in, its rows are those of the fetched entries that [tag_keywords]
    tags with the selected patterns and the selection, in fetch order;
    and when the selection lists its keywords as the configuration does
    (as the default selection, all keywords, does), the Keywords field
    of each row joins with ", " the selected keywords whose own pattern
    matches the entry. *)
Theorem run_analysis_rows (now : N) (sel feeds : list str) (w : world) :
  (∃ results w',
     run_analysis feedparser_parse date_parser_parse now sel feeds w = (Ok results, w'))
  ∧ (reachable feedparser_parse date_parser_parse w →
     ∃ entries ps,
       (fetch_rss_entries feedparser_parse now feeds w).1 = Ok entries
       ∧ KEYWORD_PATTERNS = Ok ps
       ∧ (run_analysis feedparser_parse date_parser_parse now sel feeds w).1
         = Ok (emitted date_parser_parse (select_keyword_patterns ps KEYWORDS sel) sel
               <$> filter (λ a, tag_keywords a (select_keyword_patterns ps KEYWORDS sel) sel
                                ≠ []) entries)
       ∧ (filter (λ k, k ∈ sel) KEYWORDS = sel →
          (run_analysis feedparser_parse date_parser_parse now sel feeds w).1
          = Ok ((λ a, {| Title := title a;
                         Date := published_date date_parser_parse a;
                         Link := link a;
                         Keywords := join (py ", ") (own_matches sel a);
                         Summary := summary a |})
                <$> filter (λ a, own_matches sel a ≠ []) entries))).
Proof.
  split.
  - unfold run_analysis, mbind, prog_bind, lift.
    unfold KEYWORD_PATTERNS. rewrite compile_keywords_ok.
    apply process_rss_feeds_returns.
  - intros Hw. apply reachable_sound in Hw.
    destruct (fetch_rss_entries_run _ _ now feeds w Hw) as (w1 & -> & _).
    eexists _, _. split; [reflexivity|]. split; [apply compile_keywords_ok|].
    split; [by apply run_analysis_run|].
    intros Hsel. rewrite run_analysis_run by done.
    assert (Htag : ∀ a, tag_keywords a
              (select_keyword_patterns (keyword_atoms <$> KEYWORDS) KEYWORDS sel) sel
            = own_matches sel a).
    { intros a. rewrite select_compiled, Hsel, tag_keywords_compiled.
      apply list_filter_iff. intros kw. unfold keyword_matches.
      by rewrite compile_keyword_ok. }
    f_equal. by apply rows_ext.
Qed.

Lemma display_no_match (results : list result) :
  display results = [Write (py "No matching articles found.")] ↔ results = [].
Proof. destruct results as [|r l]; [done|]. split; discriminate. Qed.

Lemma display_rows (results : list result) :
  results ≠ [] →
  display results
  = [Write (py "### Matching Articles"); Dataframe results;
     Write (py "### Article Summaries")]
    ++ ((λ r, Expander (Title r ++ py " (" ++ Date r ++ py ")") (Summary r)) <$> results).
Proof. by destruct results. Qed.

Lemma no_rows_iff ps sel (entries : list article) :
  emitted date_parser_parse ps sel <$> filter (λ a, tag_keywords a ps sel ≠ []) entries = []
  ↔ ∀ a, a ∈ entries → tag_keywords a ps sel = [].
Proof.
  split.
  - intros Hnil a Ha. apply fmap_nil_inv in Hnil.
    destruct (decide (tag_keywords a ps sel = [])) as [|Hne]; [done|].
    assert (Hin : a ∈ filter (λ a, tag_keywords a ps sel ≠ []) entries)
      by (by apply list_elem_of_filter).
    rewrite Hnil in Hin. by apply elem_of_nil in Hin.
  - intros Hall. rewrite filter_none; [done|].
    intros a Ha Hne. by apply Hne, Hall.
Qed.

(** X16. The display branch after the analysis writes the single line
    "No matching articles found." exactly when no fetched entry gets a
    tag; otherwise it writes the heading, the table of all rows, the
    second heading and then one expander per row, in row order, labelled
    with the row's title followed by its date in parentheses and holding
    the row's summary. *)
Theorem display_after_analysis (now : N) (sel feeds : list str) (w : world) :
  reachable feedparser_parse date_parser_parse w →
  ∃ entries ps results,
    (fetch_rss_entries feedparser_parse now feeds w).1 = Ok entries
    ∧ KEYWORD_PATTERNS = Ok ps
    ∧ (run_analysis feedparser_parse date_parser_parse now sel feeds w).1 = Ok results
    ∧ (display results = [Write (py "No matching articles found.")]
       ↔ ∀ a, a ∈ entries →
              tag_keywords a (select_keyword_patterns ps KEYWORDS sel) sel = [])
    ∧ (results ≠ [] →
       display results
       = [Write (py "### Matching Articles"); Dataframe results;
          Write (py "### Article Summaries")]
         ++ ((λ r, Expander (Title r ++ py " (" ++ Date r ++ py ")") (Summary r))
             <$> results)).
Proof.
  intros Hw. apply reachable_sound in Hw.
  destruct (fetch_rss_entries_run _ _ now feeds w Hw) as (w1 & -> & _).
  pose proof (run_analysis_run now sel feeds w Hw) as Hrun.
  eexists _, _, _.
  split; [reflexivity|]. split; [apply compile_keywords_ok|].
  split; [exact Hrun|]. split.
  - rewrite display_no_match. apply no_rows_iff.
  - apply display_rows.
Qed.

End ApplicationFacts.

Lemma run_analysis_rows_witness :
  ∃ entries,
    (fetch_rss_entries Sample.feeds 0 [py "F1"; py "F2"] empty_world).1 = Ok entries
    ∧ (run_analysis Sample.feeds Sample.date_parser 0 KEYWORDS [py "F1"; py "F2"]
         empty_world).1
      = Ok ((λ a, {| Title := title a;
                     Date := published_date Sample.date_parser a;
                     Link := link a;
                     Keywords := join (py ", ") (own_matches KEYWORDS a);
                     Summary := summary a |})
            <$> filter (λ a, own_matches KEYWORDS a ≠ []) entries).
Proof.
  destruct (proj2 (run_analysis_rows Sample.feeds Sample.date_parser 0 KEYWORDS
                     [py "F1"; py "F2"] empty_world) (reachable_start _ _))
    as (entries & ps & Hf & _ & _ & H).
  exists entries. split; [exact Hf|]. apply H. vm_compute. reflexivity.
Defined.

Lemma display_after_analysis_witness :
  ∃ results,
    (run_analysis Sample.feeds Sample.date_parser 0 KEYWORDS [py "F1"; py "F2"]
       empty_world).1 = Ok results
    ∧ (results ≠ [] →
       display results
       = [Write (py "### Matching Articles"); Dataframe results;
          Write (py "### Article Summaries")]
         ++ ((λ r, Expander (Title r ++ py " (" ++ Date r ++ py ")") (Summary r))
             <$> results)).
Proof.
  destruct (display_after_analysis Sample.feeds Sample.date_parser 0 KEYWORDS
              [py "F1"; py "F2"] empty_world (reachable_start _ _))
    as (entries & ps & results & _ & _ & Hr & _ & Hd).
  exists results. split; [exact Hr|exact Hd].
Defined.

(** ** Two more edge cases *)

Lemma first_word_char (content : str) :
  (∃ c, c ∈ content ∧ re.is_word c = true) →
  ∃ pre c post, content = pre ++ c :: post
                ∧ re.word_before (last pre) = false ∧ re.is_word c = true.
Proof.
  induction content as [|x content IH]; intros (c & Hin & Hc).
  - by apply elem_of_nil in Hin.
  - destruct (re.is_word x) eqn:Hx.
    + by exists [], x, content.
    + apply elem_of_cons in Hin as [->|Hin]; [congruence|].
      destruct IH as (pre & c' & post & -> & Hpre & Hc'); [by exists c|].
      exists (x :: pre), c', post. split; [done|]. split; [|done].
      destruct pre as [|y pre]; [by cbn; rewrite Hx|].
      by rewrite last_cons_cons.
Qed.

(** X17. The empty keyword compiles to two word boundaries in a row and
    is returned for every article whose normalised title and summary
    hold at least one word character, and for no other. *)
Theorem empty_keyword_tagged (a : article) (p : re.pattern) :
  compile_keyword [] = Ok p →
  p = [re.Boundary; re.Boundary]
  ∧ (tag_keywords a [p] [[]] = [[]]
     ↔ ∃ c, c ∈ normalize_text (title a ++ py " " ++ summary a) ∧ re.is_word c = true).
Proof.
  rewrite compile_keyword_ok. intros [= <-]. split; [done|].
  fold (searched_text a). rewrite tag_single.
  assert (re.search (keyword_atoms []) (searched_text a) = true
          ↔ ∃ c, c ∈ searched_text a ∧ re.is_word c = true) as <-.
  { rewrite keyword_search. cbn [lower map app]. split.
    - intros (pre & post & -> & Hb & _). unfold re.at_boundary in Hb.
      destruct (re.word_before (last pre)) eqn:Hpre.
      + destruct (last pre) as [c|] eqn:E; [|done]. exists c. split; [|done].
        apply last_Some in E as [l ->]. rewrite !elem_of_app. left. right.
        apply list_elem_of_here.
      + cbn in Hb. destruct post as [|c post]; [done|]. exists c. split; [|done].
        apply elem_of_app. right. apply list_elem_of_here.
    - intros H. apply first_word_char in H as (pre & c & post & -> & Hpre & Hc).
      exists pre, (c :: post). split; [done|].
      unfold re.at_boundary, prev_after. cbn. fold (re.word_before (last pre)).
      by rewrite Hpre, Hc. }
  destruct (re.search _ _); by split.
Qed.

Lemma empty_keyword_tagged_witness :
  tag_keywords (Sample.blank "!" "7 up") [[re.Boundary; re.Boundary]] [[]] = [[]].
Proof.
  apply (proj2 (empty_keyword_tagged (Sample.blank "!" "7 up")
                  [re.Boundary; re.Boundary] eq_refl)).
  exists "7"%char. split; [|reflexivity].
  apply (bool_decide_unpack _). by vm_compute.
Defined.

Lemma accepted_well_formed (entries : list feed_entry) :
  Forall well_formed entries →
  accepted entries
  = (λ entry, {| title := default [] (entry_title entry);
                 link := default [] (entry_link entry);
                 summary := default [] (entry_summary entry);
                 published := default [] (entry_published entry) |}) <$> entries
  ∧ first_error entries = None.
Proof.
  induction 1 as [|entry entries [[t Ht] [l Hl]] _ [IH1 IH2]]; [done|].
  cbn [accepted first_error]. unfold article_info. rewrite Ht, Hl. cbn.
  rewrite Ht, Hl, IH1. by split.
Qed.

(** X18. A feed whose entries all have a title and a link contributes
    one article per entry, in order, with the empty text in place of an
    absent summary or publication date, and nothing is reported. *)
Theorem well_formed_feed_kept
    (feedparser_parse : str → outcome (list feed_entry))
    (feed_url : str) (entries : list feed_entry) (w : world) :
  feedparser_parse feed_url = Ok entries →
  Forall well_formed entries →
  fetch_rss_entries_uncached feedparser_parse [feed_url] w
  = (Ok ((λ entry, {| title := default [] (entry_title entry);
                      link := default [] (entry_link entry);
                      summary := default [] (entry_summary entry);
                      published := default [] (entry_published entry) |}) <$> entries),
     w).
Proof.
  intros Hsrc Hwf. rewrite fetch_rss_entries_uncached_run. cbn [flat_map].
  unfold feed_articles, feed_events. rewrite Hsrc, !app_nil_r.
  destruct (accepted_well_formed entries Hwf) as [-> ->].
  f_equal. destruct w. unfold write_log. cbn. by rewrite app_nil_r.
Qed.

Lemma well_formed_feed_kept_witness :
  fetch_rss_entries_uncached
    (λ _, Ok [{| entry_title := Some (py "KFC"); entry_link := Some (py "l");
                 entry_summary := None; entry_published := None |}])
    [py "F"] empty_world
  = (Ok [{| title := py "KFC"; link := py "l"; summary := []; published := [] |}],
     empty_world).
Proof.
  refine (well_formed_feed_kept _ (py "F") _ empty_world eq_refl _).
  constructor; [|constructor]. split; by eexists.
Defined.
